(** * Hey-it: task queue, batch runner and persistent collections

    A shallow embedding of the orchestration code of the application:
    - [Gateway]: services/geminiService.ts ([generateStyledImages],
      [translatePromptsToEnglish]);
    - [App]: App.tsx (the task queue, the synthetic progress signal, the
      gallery and the trash);
    - [Vip]: components/VipMode.tsx (the pausable batch runner).

    Conventions of the embedding.
    - A JS string is a [string]; [undefined] in an optional field is [None].
    - A JS number that is a count or an index is a [nat]; the [progress]
      field, the only one computed with a division, is a rational [Q] kept
      in lowest terms.
    - React state is an explicit record; a handler is a function from state
      to state; what a closure captured at render time is an explicit
      argument of the function that models the closure.
    - The environment (the backend's answers, the clock, the id generator)
      enters as arguments.
    - A component is a transition system: one event is one handler, one
      effect, one timer callback or one continuation after an [await], and
      its state updates are committed before the next event. *)

From Stdlib Require Import List String Ascii Bool Arith Lia ZArith.
From Stdlib Require Import QArith Qminmax DecimalString.
From Stdlib Require Import Permutation Lqa.
Import ListNotations.
Close Scope Q_scope.
Open Scope string_scope.

Set Implicit Arguments.

(* ================================================================== *)
(** ** JavaScript primitives used by the code *)
(* ================================================================== *)

Module JS.

(** Truthiness of a string: every string but the empty one. *)
Definition truthy (s : string) : bool :=
  match s with EmptyString => false | String _ _ => true end.

(** Truthiness of an optional string ([undefined] is falsy). *)
Definition truthy_opt (o : option string) : bool :=
  match o with Some s => truthy s | None => false end.

(** [a || b] on strings where [a] may be undefined and [b] is defined. *)
Definition or_else (a : option string) (b : string) : string :=
  match a with
  | Some s => if truthy s then s else b
  | None => b
  end.

(** [Array.prototype.pop]: the last element (or undefined) and the array
    that is left. *)
Fixpoint pop (A : Type) (l : list A) : option A * list A :=
  match l with
  | [] => (None, [])
  | [x] => (Some x, [])
  | x :: rest => let (r, rest') := pop rest in (r, x :: rest')
  end.

(** [Array.prototype.findIndex]; [None] stands for -1. *)
Fixpoint findIndex (A : Type) (p : A -> bool) (l : list A) : option nat :=
  match l with
  | [] => None
  | x :: rest =>
      if p x then Some 0
      else match findIndex p rest with
           | Some i => Some (S i)
           | None => None
           end
  end.

(** [arr.map((x, i) => f(x, i))], with the index starting at [i0]. *)
Fixpoint mapi_from (A B : Type) (f : A -> nat -> B) (i0 : nat) (l : list A)
  : list B :=
  match l with
  | [] => []
  | x :: rest => f x i0 :: mapi_from f (S i0) rest
  end.

Definition mapi (A B : Type) (f : A -> nat -> B) (l : list A) : list B :=
  mapi_from f 0 l.

(** [arr.filter((x, i) => p(x, i))]. *)
Fixpoint filteri_from (A : Type) (p : A -> nat -> bool) (i0 : nat)
  (l : list A) : list A :=
  match l with
  | [] => []
  | x :: rest =>
      if p x i0 then x :: filteri_from p (S i0) rest
      else filteri_from p (S i0) rest
  end.

Definition filteri (A : Type) (p : A -> nat -> bool) (l : list A) : list A :=
  filteri_from p 0 l.

(** [newArr[i] = f(newArr[i])] on a copy; out of range nothing is read. *)
Fixpoint update_at (A : Type) (i : nat) (f : A -> A) (l : list A) : list A :=
  match l, i with
  | [], _ => []
  | x :: rest, O => f x :: rest
  | x :: rest, S j => x :: update_at j f rest
  end.

(** [s.split(sep)] for a non-empty separator: left to right,
    non-overlapping.  [skip] counts the characters of a separator just
    matched that are still to be dropped, [cur] is the piece being read. *)
Fixpoint split_from (sep s : string) (skip : nat) (cur : string)
  : list string :=
  match s with
  | EmptyString => [cur]
  | String c rest =>
      match skip with
      | S k => split_from sep rest k cur
      | O =>
          if String.prefix sep s
          then cur :: split_from sep rest (String.length sep - 1) ""
          else split_from sep rest 0 (cur ++ String c "")
      end
  end.

Definition split (sep s : string) : list string := split_from sep s 0 "".

(** [arr.join(sep)]. *)
Definition join (sep : string) (l : list string) : string :=
  String.concat sep l.

(** [s.includes(t)]. *)
Fixpoint includes (t s : string) : bool :=
  String.prefix t s ||
  match s with
  | EmptyString => false
  | String _ rest => includes t rest
  end.

(** [s.toUpperCase()] on the ASCII letters; other code units are kept. *)
Definition upper_ascii (c : ascii) : ascii :=
  let n := nat_of_ascii c in
  if ((97 <=? n) && (n <=? 122))%nat then ascii_of_nat (n - 32) else c.

Fixpoint toUpperCase (s : string) : string :=
  match s with
  | EmptyString => EmptyString
  | String c rest => String (upper_ascii c) (toUpperCase rest)
  end.

(** The double quote and the line feed, as one-character strings. *)
Definition dq : string := String (ascii_of_nat 34) EmptyString.
Definition lf : string := String (ascii_of_nat 10) EmptyString.

(** [String(i)] for a non-negative integer. *)
Definition string_of_nat (n : nat) : string :=
  NilEmpty.string_of_uint (Nat.to_uint n).

(** What a [throw] or a rejected promise carries, as far as the handlers
    look at it: the [error] property when it is an object whose [message]
    and [status] are strings, and whether the value is an [Error] (with
    its [message]), a string, or something else. *)
Record ApiError := {
  api_message : string;
  api_status : string;
  api_code : option Z
}.

Inductive ThrownKind :=
| IsError (message : string)
| IsString (s : string)
| IsOther.

Record Thrown := {
  th_error : option ApiError;
  th_kind : ThrownKind
}.

(** [new Error(message)]. *)
Definition newError (message : string) : Thrown :=
  {| th_error := None; th_kind := IsError message |}.

(** The outcome of awaiting a promise. *)
Inductive Settled (A : Type) :=
| Resolved (a : A)
| Rejected (e : Thrown).
Arguments Rejected {A} e.

(** Whether the code unit [c] occurs in [s]. *)
Fixpoint hasChar (c : ascii) (s : string) : bool :=
  match s with
  | EmptyString => false
  | String c' rest => Ascii.eqb c' c || hasChar c rest
  end.

End JS.

(* ================================================================== *)
(** ** services/geminiService.ts *)
(* ================================================================== *)

Module Gateway.
Import JS.

Record InlineData := { mimeType : string; data : string }.

(** The part of a [generateContent] response the code reads:
    [promptFeedback?.blockReason] and the first part of the first
    candidate that has [inlineData]. *)
Record GenerateContentResponse := {
  blockReason : option string;
  imagePart : option InlineData
}.

(** The configuration sent to [generateImages]. *)
Record GenerateImagesRequest := {
  gi_model : string;
  gi_prompt : string;
  gi_numberOfImages : nat;
  gi_outputMimeType : string;
  gi_aspectRatio : string
}.

(** [response.generatedImages], each image by its [imageBytes]. *)
Record GenerateImagesResponse := {
  generatedImages : option (list string)
}.

(** The request sent to [generateContent]. *)
Record GenerateContentRequest := {
  gc_model : string;
  gc_parts : list InlineData;
  gc_text : string
}.

Inductive Request :=
| ContentRequest (r : GenerateContentRequest)
| ImagesRequest (r : GenerateImagesRequest).

(** The backend: the answer to the [i]-th [generateContent] call of one
    invocation, and the answer to a [generateImages] call. *)
Record Backend := {
  generateContent : nat -> GenerateContentRequest ->
                    Settled GenerateContentResponse;
  generateImages : GenerateImagesRequest -> Settled GenerateImagesResponse
}.

Definition noImagesMessage : string :=
  "AI模型未能生成任何图片。这可能是由于安全设置或请求无效。".

Definition blockedMessage (reason : string) : string :=
  "请求被阻止: " ++ reason.

Definition dataUrl (mime payload : string) : string :=
  "data:" ++ mime ++ ";base64," ++ payload.

Definition mapAspectRatio (ar : string) : string :=
  if String.eqb ar "16:9" then "16:9"
  else if String.eqb ar "9:16" then "9:16"
  else if String.eqb ar "3:2" then "4:3"
  else "16:9".

Definition combinedPrompt (styleDescription userPrompt : string) : string :=
  "Synthesize the artistic styles from ALL of the provided reference images. The key stylistic elements are described as: "
  ++ dq ++ styleDescription ++ dq
  ++ ". Use this synthesized style to create a new image depicting: "
  ++ dq ++ userPrompt ++ dq.

Definition contentRequest (styleDescription userPrompt : string)
  (referenceImageParts : list InlineData) : GenerateContentRequest :=
  {| gc_model := "gemini-2.5-flash-image-preview";
     gc_parts := referenceImageParts;
     gc_text := combinedPrompt styleDescription userPrompt |}.

Definition imagesRequest (styleDescription userPrompt : string)
  (numberOfImages : nat) (aspectRatio : string) : GenerateImagesRequest :=
  {| gi_model := "imagen-4.0-generate-001";
     gi_prompt := styleDescription ++ ", " ++ userPrompt;
     gi_numberOfImages := numberOfImages;
     gi_outputMimeType := "image/jpeg";
     gi_aspectRatio := mapAspectRatio aspectRatio |}.

(** The loop of path 1, [for (let i = ...; i < numberOfImages; i++)] with
    [remaining = numberOfImages - i] iterations left.  It returns the
    requests sent and either the thrown value or [generatedImages]. *)
Fixpoint styleLoop (b : Backend) (req : GenerateContentRequest)
  (remaining i : nat) (acc : list string)
  : list Request * (Thrown + list string) :=
  match remaining with
  | O => ([], inr acc)
  | S remaining' =>
      match generateContent b i req with
      | Rejected e => ([ContentRequest req], inl e)
      | Resolved response =>
          if truthy_opt (blockReason response)
          then ([ContentRequest req],
                inl (newError (blockedMessage
                       (match blockReason response with
                        | Some r => r | None => "" end))))
          else
            let acc' :=
              match imagePart response with
              | Some p => (acc ++ [dataUrl (mimeType p) (data p)])%list
              | None => acc
              end in
            let (sent, r) := styleLoop b req remaining' (S i) acc' in
            (ContentRequest req :: sent, r)
      end
  end.

(** [generateStyledImages]: the requests sent to the backend and the
    settled value of the returned promise. *)
Definition generateStyledImages (b : Backend)
  (styleDescription userPrompt : string) (numberOfImages : nat)
  (aspectRatio : string) (referenceImageParts : option (list InlineData))
  : list Request * (Thrown + list string) :=
  match referenceImageParts with
  | Some (p :: ps) =>
      let req := contentRequest styleDescription userPrompt (p :: ps) in
      match styleLoop b req numberOfImages 0 [] with
      | (sent, inl e) => (sent, inl e)
      | (sent, inr []) => (sent, inl (newError noImagesMessage))
      | (sent, inr imgs) => (sent, inr imgs)
      end
  | _ =>
      let req := imagesRequest styleDescription userPrompt numberOfImages
                   aspectRatio in
      ([ImagesRequest req],
       match generateImages b req with
       | Rejected e => inl e
       | Resolved response =>
           match generatedImages response with
           | None | Some [] => inl (newError noImagesMessage)
           | Some imgs =>
               inr (map (fun bytes => dataUrl "image/jpeg" bytes) imgs)
           end
       end)
  end.

Definition separator : string := "|||---|||".

(** The prompt sent for translation. *)
Definition translationPrompt (prompts : list string) : string :=
  "Translate the following list of creative prompts from Chinese to English. The prompts are separated by "
  ++ dq ++ separator ++ dq
  ++ ". Maintain the original meaning and creative intent of each prompt. Return the translated prompts separated by the exact same separator. Do not add any other text or explanation."
  ++ lf ++ lf ++ "    Prompts:" ++ lf ++ "    "
  ++ join separator prompts.

(** [translatePromptsToEnglish].  [answer] maps the prompt sent to the
    settled model call, its text already trimmed
    ([response.text.trim()]). *)
Definition translatePromptsToEnglish
  (answer : string -> Settled string) (prompts : list string)
  : Thrown + list string :=
  match prompts with
  | [] => inr []
  | _ =>
      match answer (translationPrompt prompts) with
      | Rejected e => inl e
      | Resolved translatedText =>
          let translatedPrompts := split separator translatedText in
          if negb (List.length translatedPrompts =? List.length prompts)%nat
          then inr prompts
          else inr translatedPrompts
      end
  end.

(** [.] of a regular expression: any code unit but a line terminator (of
    the four, the line feed and the carriage return are code units below
    256). *)
Definition isLineTerminator (c : ascii) : bool :=
  Ascii.eqb c "010"%char || Ascii.eqb c "013"%char.

(** The lazy group and the semicolon of [/:(.*?);/], tried right after a
    colon: the shortest run of non-terminators that a semicolon follows. *)
Fixpoint lazyUntilSemicolon (s : string) : option string :=
  match s with
  | EmptyString => None
  | String c rest =>
      if Ascii.eqb c ";"%char then Some EmptyString
      else if isLineTerminator c then None
      else match lazyUntilSemicolon rest with
           | Some m => Some (String c m)
           | None => None
           end
  end.

(** [s.match(/:(.*?);/)]: the group of the leftmost match, if any. *)
Fixpoint matchMime (s : string) : option string :=
  match s with
  | EmptyString => None
  | String c rest =>
      if Ascii.eqb c ":"%char then
        match lazyUntilSemicolon rest with
        | Some m => Some m
        | None => matchMime rest
        end
      else matchMime rest
  end.

(** How [fileToGenerativePart] (and [handleFinalizeSaveStyle], with the
    same lines) takes a data URL apart. *)
Definition partOfDataUrl (dataUrl' : string) : Thrown + InlineData :=
  let arr := split "," dataUrl' in
  if (List.length arr <? 2)%nat then inl (newError "Invalid data URL")
  else
    match matchMime (nth 0 arr "") with
    | Some m =>
        if truthy m
        then inr {| mimeType := m; data := nth 1 arr "" |}
        else inl (newError "Could not parse MIME type from data URL")
    | None => inl (newError "Could not parse MIME type from data URL")
    end.

(** What call [i] of path 1 throws, if it throws: the rejection of the
    call, or the error raised on a block reason. *)
Definition callFails (b : Backend) (req : GenerateContentRequest) (i : nat)
  : option Thrown :=
  match generateContent b i req with
  | Rejected e => Some e
  | Resolved response =>
      if truthy_opt (blockReason response)
      then Some (newError (blockedMessage
                   (match blockReason response with
                    | Some r => r | None => "" end)))
      else None
  end.

(** The data URL call [i] of path 1 contributes, if it returns an image. *)
Definition callImage (b : Backend) (req : GenerateContentRequest) (i : nat)
  : list string :=
  match generateContent b i req with
  | Resolved response =>
      match imagePart response with
      | Some p => [dataUrl (mimeType p) (data p)]
      | None => []
      end
  | Rejected _ => []
  end.

End Gateway.

(* ================================================================== *)
(** ** App.tsx: task queue, progress signal, gallery and trash *)
(* ================================================================== *)

Module App.
Import JS.

Inductive Status := completed | generating | queued | failed.

Definition Status_eqb (a b : Status) : bool :=
  match a, b with
  | completed, completed | generating, generating
  | queued, queued | failed, failed => true
  | _, _ => false
  end.

Record ImageItem := {
  id : string;
  name : string;
  status : Status;
  url : option string;
  progress : option Q;
  taskId : option string;
  styleDescription : string;
  contentPrompt : string;
  error : option string
}.

Record ImageGroup := {
  date : string;
  images : list ImageItem
}.

(** [Omit<Task, 'id'>], what the prompt bar submits. *)
Record TaskDetails := {
  td_contentPrompt : string;
  td_numImages : nat;
  td_aspectRatio : string;
  td_styleDescription : option string;
  td_referenceImageParts : option (list Gateway.InlineData)
}.

Record Task := {
  task_id : string;
  task_contentPrompt : string;
  numImages : nat;
  aspectRatio : string;
  task_styleDescription : option string;
  referenceImageParts : option (list Gateway.InlineData)
}.

(** [Partial<ImageItem>] as the code uses it: the keys present in the
    object literal, each with its value ([progress: undefined] is the key
    present with no value). *)
Record Updates := {
  u_status : option Status;
  u_progress : option (option Q);
  u_error : option (option string)
}.

Definition setting (A : Type) (u : option A) (old : A) : A :=
  match u with Some v => v | None => old end.

(** [{ ...img, ...updates }]. *)
Definition applyUpdates (img : ImageItem) (u : Updates) : ImageItem :=
  {| id := id img;
     name := name img;
     status := setting (u_status u) (status img);
     url := url img;
     progress := setting (u_progress u) (progress img);
     taskId := taskId img;
     styleDescription := styleDescription img;
     contentPrompt := contentPrompt img;
     error := setting (u_error u) (error img) |}.

(** [img.taskId === task_id]. *)
Definition hasTaskId (task_id : string) (img : ImageItem) : bool :=
  match taskId img with
  | Some t => String.eqb t task_id
  | None => false
  end.

Definition withImages (group : ImageGroup) (imgs : list ImageItem)
  : ImageGroup :=
  {| date := date group; images := imgs |}.

Definition updateImageStatus (task_id : string) (updates : Updates)
  (prevGroups : list ImageGroup) : list ImageGroup :=
  map (fun group =>
         withImages group
           (map (fun img => if hasTaskId task_id img
                            then applyUpdates img updates else img)
                (images group)))
      prevGroups.

(** *** The synthetic progress signal *)

(** [img.progress ?? 0]. *)
Definition progressOrZero (img : ImageItem) : Q :=
  match progress img with Some p => p | None => 0%Q end.

(** [x < 95]. *)
Definition below95 (x : Q) : bool := negb (Qle_bool 95 x).

(** [Math.max(1, (95 - currentProgress) / 15)]. *)
Definition increment (currentProgress : Q) : Q :=
  Qmax 1 ((95 - currentProgress) / 15)%Q.

(** [Math.min(currentProgress + increment, 95)], in lowest terms. *)
Definition nextProgress (currentProgress : Q) : Q :=
  Qred (Qmin (currentProgress + increment currentProgress) 95)%Q.

Definition withProgress (img : ImageItem) (p : option Q) : ImageItem :=
  {| id := id img; name := name img; status := status img;
     url := url img; progress := p; taskId := taskId img;
     styleDescription := styleDescription img;
     contentPrompt := contentPrompt img; error := error img |}.

(** The callback of the interval, on one image. *)
Definition tickImage (task_id : string) (img : ImageItem) : ImageItem :=
  if hasTaskId task_id img && Status_eqb (status img) generating
     && below95 (progressOrZero img)
  then withProgress img (Some (nextProgress (progressOrZero img)))
  else img.

(** The callback of the interval, every 200 ms. *)
Definition tick (task_id : string) (prevGroups : list ImageGroup)
  : list ImageGroup :=
  map (fun group => withImages group (map (tickImage task_id) (images group)))
      prevGroups.

Definition startUpdates : Updates :=
  {| u_status := Some generating; u_progress := Some (Some 0%Q);
     u_error := None |}.
Definition doneUpdates : Updates :=
  {| u_status := None; u_progress := Some (Some 100%Q); u_error := None |}.
Definition clearUpdates : Updates :=
  {| u_status := None; u_progress := Some None; u_error := None |}.
Definition failedUpdates (errorMessage : string) : Updates :=
  {| u_status := Some failed; u_progress := None;
     u_error := Some (Some errorMessage) |}.

(** *** Folding the artifacts back into the gallery *)

Definition defaultStyle : string :=
  "cinematic photo, dramatic lighting, high detail, professional quality".

(** [task.styleDescription || '...']. *)
Definition finalStyleDesc (task : Task) : string :=
  or_else (task_styleDescription task) defaultStyle.

Definition completedName (task : Task) : string :=
  if (40 <? String.length (task_contentPrompt task))%nat
  then substring 0 40 (task_contentPrompt task) ++ "..."
  else task_contentPrompt task.

Definition completeImage (task : Task) (img : ImageItem)
  (newImageData : string) : ImageItem :=
  {| id := id img;
     name := completedName task;
     status := completed;
     url := Some newImageData;
     progress := progress img;
     taskId := taskId img;
     styleDescription := finalStyleDesc task;
     contentPrompt := contentPrompt img;
     error := error img |}.

(** The callback of [group.images.map] in the success branch; the array
    [newImages] is shared by all calls and shrinks with each [pop]. *)
Definition assignImage (task : Task) (img : ImageItem)
  (newImages : list string) : ImageItem * list string :=
  if hasTaskId (task_id task) img then
    let (newImageData, newImages') := pop newImages in
    match newImageData with
    | Some d => if truthy d then (completeImage task img d, newImages')
                else (img, newImages')
    | None => (img, newImages')
    end
  else (img, newImages).

Fixpoint assignImages (task : Task) (imgs : list ImageItem)
  (newImages : list string) : list ImageItem * list string :=
  match imgs with
  | [] => ([], newImages)
  | img :: rest =>
      let (img', n1) := assignImage task img newImages in
      let (rest', n2) := assignImages task rest n1 in
      (img' :: rest', n2)
  end.

Definition notGenerating (img : ImageItem) : bool :=
  negb (Status_eqb (status img) generating).

(** The updater passed to [setImageGroups] in the success branch. *)
Fixpoint reconcile (task : Task) (prevGroups : list ImageGroup)
  (newImages : list string) : list ImageGroup * list string :=
  match prevGroups with
  | [] => ([], newImages)
  | group :: rest =>
      let (mapped, n1) := assignImages task (images group) newImages in
      let (rest', n2) := reconcile task rest n1 in
      (withImages group (filter notGenerating mapped) :: rest', n2)
  end.

(** *** Gallery and trash *)

(** The updater shared by [enqueueTask], [handleRestoreImage] and
    [addInpaintedImage]: unshift into the first group of that date, or
    open a new group at the head. *)
Definition unshiftIntoDate (dateString : string) (items : list ImageItem)
  (prev : list ImageGroup) : list ImageGroup :=
  match findIndex (fun h => String.eqb (date h) dateString) prev with
  | Some todayGroupIndex =>
      update_at todayGroupIndex
        (fun g => withImages g (items ++ images g)%list) prev
  | None => {| date := dateString; images := items |} :: prev
  end.

Definition placeholder (taskId' contentPrompt' : string) (i : nat)
  : ImageItem :=
  {| id := taskId' ++ "-" ++ string_of_nat i;
     name := "生成中...";
     status := queued;
     url := None;
     progress := None;
     taskId := Some taskId';
     styleDescription := "";
     contentPrompt := contentPrompt';
     error := None |}.

(** [Array.from({ length: n }, (_, i) => ...)]. *)
Definition placeholderImages (taskId' contentPrompt' : string) (n : nat)
  : list ImageItem :=
  map (placeholder taskId' contentPrompt') (seq 0 n).

Definition nonEmpty (group : ImageGroup) : bool :=
  negb (List.length (images group) =? 0)%nat.

(** The [map]/[filter] that takes image [imageIdx] out of group
    [groupIdx] and drops the groups left empty. *)
Definition removeAt (groups : list ImageGroup) (groupIdx imageIdx : nat)
  : list ImageGroup :=
  filter nonEmpty
    (mapi (fun group gIdx =>
             if negb (gIdx =? groupIdx)%nat then group
             else withImages group
                    (filteri (fun _ iIdx => negb (iIdx =? imageIdx)%nat)
                             (images group)))
          groups).

(** The image the [filter] callback stores in [imageToMove] (or
    [imageToRestore]): the one at those indices, if any. *)
Definition imageAt (groups : list ImageGroup) (groupIdx imageIdx : nat)
  : option ImageItem :=
  match nth_error groups groupIdx with
  | Some group => nth_error (images group) imageIdx
  | None => None
  end.

Definition trashDate (localeDate : string) : string :=
  "删除于 " ++ localeDate.

(** The updater passed to [setTrash] by [handleDeleteImage]. *)
Definition moveToTrash (dateString : string) (imageToMove : ImageItem)
  (prevTrash : list ImageGroup) : list ImageGroup :=
  match find (fun g => String.eqb (date g) dateString) prevTrash with
  | Some _ =>
      map (fun g => if String.eqb (date g) dateString
                    then withImages g (imageToMove :: images g) else g)
          prevTrash
  | None => {| date := dateString; images := [imageToMove] |} :: prevTrash
  end.

(** *** The component state and its handlers *)

(** The state of [App] that the queue touches.  [progressIntervals] is
    the [Map] from task id to interval handle; [pendingClears] holds the
    task ids of the [setTimeout] callbacks that [stopProgress] scheduled
    and that have not fired yet; [awaiting] holds the task of every
    invocation of [processQueue] that is suspended at
    [await generateStyledImages(...)]. *)
Record State := {
  taskQueue : list Task;
  isProcessing : bool;
  imageGroups : list ImageGroup;
  trash : list ImageGroup;
  appError : option string;
  progressIntervals : list (string * nat);
  nextIntervalId : nat;
  pendingClears : list string;
  awaiting : list Task
}.

(** The state after the first render: the stored gallery and trash. *)
Definition initial (storedGroups storedTrash : list ImageGroup) : State :=
  {| taskQueue := []; isProcessing := false;
     imageGroups := storedGroups; trash := storedTrash;
     appError := None; progressIntervals := []; nextIntervalId := 1;
     pendingClears := []; awaiting := [] |}.

Definition setImageGroups (f : list ImageGroup -> list ImageGroup)
  (st : State) : State :=
  {| taskQueue := taskQueue st; isProcessing := isProcessing st;
     imageGroups := f (imageGroups st); trash := trash st;
     appError := appError st; progressIntervals := progressIntervals st;
     nextIntervalId := nextIntervalId st;
     pendingClears := pendingClears st; awaiting := awaiting st |}.

Definition setTrash (f : list ImageGroup -> list ImageGroup)
  (st : State) : State :=
  {| taskQueue := taskQueue st; isProcessing := isProcessing st;
     imageGroups := imageGroups st; trash := f (trash st);
     appError := appError st; progressIntervals := progressIntervals st;
     nextIntervalId := nextIntervalId st;
     pendingClears := pendingClears st; awaiting := awaiting st |}.

Definition setTaskQueue (f : list Task -> list Task) (st : State) : State :=
  {| taskQueue := f (taskQueue st); isProcessing := isProcessing st;
     imageGroups := imageGroups st; trash := trash st;
     appError := appError st; progressIntervals := progressIntervals st;
     nextIntervalId := nextIntervalId st;
     pendingClears := pendingClears st; awaiting := awaiting st |}.

Definition setIsProcessing (b : bool) (st : State) : State :=
  {| taskQueue := taskQueue st; isProcessing := b;
     imageGroups := imageGroups st; trash := trash st;
     appError := appError st; progressIntervals := progressIntervals st;
     nextIntervalId := nextIntervalId st;
     pendingClears := pendingClears st; awaiting := awaiting st |}.

Definition setError (e : option string) (st : State) : State :=
  {| taskQueue := taskQueue st; isProcessing := isProcessing st;
     imageGroups := imageGroups st; trash := trash st;
     appError := e; progressIntervals := progressIntervals st;
     nextIntervalId := nextIntervalId st;
     pendingClears := pendingClears st; awaiting := awaiting st |}.

Definition setAwaiting (f : list Task -> list Task) (st : State) : State :=
  {| taskQueue := taskQueue st; isProcessing := isProcessing st;
     imageGroups := imageGroups st; trash := trash st;
     appError := appError st; progressIntervals := progressIntervals st;
     nextIntervalId := nextIntervalId st;
     pendingClears := pendingClears st; awaiting := f (awaiting st) |}.

(** [progressIntervals.current.get], [.set] and [.delete]. *)
Fixpoint mapGet (k : string) (m : list (string * nat)) : option nat :=
  match m with
  | [] => None
  | (k', v) :: rest => if String.eqb k' k then Some v else mapGet k rest
  end.

Definition mapDelete (k : string) (m : list (string * nat))
  : list (string * nat) :=
  filter (fun kv => negb (String.eqb (fst kv) k)) m.

Definition mapSet (k : string) (v : nat) (m : list (string * nat))
  : list (string * nat) :=
  match mapGet k m with
  | Some _ => map (fun kv => if String.eqb (fst kv) k then (k, v) else kv) m
  | None => (m ++ [(k, v)])%list
  end.

Definition startProgress (taskId' : string) (st : State) : State :=
  let st1 := setImageGroups (updateImageStatus taskId' startUpdates) st in
  {| taskQueue := taskQueue st1; isProcessing := isProcessing st1;
     imageGroups := imageGroups st1; trash := trash st1;
     appError := appError st1;
     progressIntervals :=
       mapSet taskId' (nextIntervalId st1) (progressIntervals st1);
     nextIntervalId := S (nextIntervalId st1);
     pendingClears := pendingClears st1; awaiting := awaiting st1 |}.

Definition stopProgress (taskId' : string) (st : State) : State :=
  let cleared :=
    match mapGet taskId' (progressIntervals st) with
    | Some intervalId =>
        if (intervalId =? 0)%nat then progressIntervals st
        else mapDelete taskId' (progressIntervals st)
    | None => progressIntervals st
    end in
  let st1 := setImageGroups (updateImageStatus taskId' doneUpdates) st in
  {| taskQueue := taskQueue st1; isProcessing := isProcessing st1;
     imageGroups := imageGroups st1; trash := trash st1;
     appError := appError st1;
     progressIntervals := cleared;
     nextIntervalId := nextIntervalId st1;
     pendingClears := (pendingClears st1 ++ [taskId'])%list;
     awaiting := awaiting st1 |}.

Definition unknownError : string := "发生未知错误。".

(** [err instanceof Error ? err.message : '...']. *)
Definition errorMessageOf (err : Thrown) : string :=
  match th_kind err with
  | IsError m => m
  | _ => unknownError
  end.

Definition taskFailedBanner (task : Task) (errorMessage : string) : string :=
  "任务 " ++ substring 0 6 (task_id task) ++ "... 失败: " ++ errorMessage.

(** [processQueue] up to its [await]: the guard, the flag, the progress
    signal, and the call left outstanding. *)
Definition processQueue (st : State) : State :=
  if isProcessing st || (List.length (taskQueue st) =? 0)%nat then st
  else
    match taskQueue st with
    | [] => st
    | task :: _ =>
        setAwaiting (fun a => (a ++ [task])%list)
          (startProgress (task_id task)
             (setError None (setIsProcessing true st)))
    end.

(** The gateway call that the suspended invocation is waiting for. *)
Definition gatewayCall (b : Gateway.Backend) (task : Task)
  : list Gateway.Request * (Thrown + list string) :=
  Gateway.generateStyledImages b (finalStyleDesc task)
    (task_contentPrompt task) (numImages task) (aspectRatio task)
    (referenceImageParts task).

(** [processQueue] from its [await] on: the success branch or the
    [catch], then the [finally]. *)
Definition processQueueResume (task : Task)
  (outcome : Thrown + list string) (st : State) : State :=
  let st1 :=
    match outcome with
    | inr newImages =>
        setImageGroups (fun prev => fst (reconcile task prev newImages)) st
    | inl err =>
        let errorMessage := errorMessageOf err in
        setImageGroups
          (updateImageStatus (task_id task) (failedUpdates errorMessage))
          (setError (Some (taskFailedBanner task errorMessage)) st)
    end in
  setIsProcessing false
    (setTaskQueue (fun prevQueue => tl prevQueue)
       (stopProgress (task_id task) st1)).

Definition enqueueTask (taskDetails : TaskDetails)
  (taskId' dateString : string) (st : State) : State :=
  let newTask :=
    {| task_id := taskId';
       task_contentPrompt := td_contentPrompt taskDetails;
       numImages := td_numImages taskDetails;
       aspectRatio := td_aspectRatio taskDetails;
       task_styleDescription := td_styleDescription taskDetails;
       referenceImageParts := td_referenceImageParts taskDetails |} in
  setTaskQueue (fun prevQueue => (prevQueue ++ [newTask])%list)
    (setImageGroups
       (unshiftIntoDate dateString
          (placeholderImages taskId' (task_contentPrompt newTask)
             (numImages newTask)))
       st).

Definition handleDeleteImage (groupIdx imageIdx : nat)
  (localeDate : string) (st : State) : State :=
  let imageToMove := imageAt (imageGroups st) groupIdx imageIdx in
  let newImageGroups := removeAt (imageGroups st) groupIdx imageIdx in
  let st1 := setImageGroups (fun _ => newImageGroups) st in
  match imageToMove with
  | Some img => setTrash (moveToTrash (trashDate localeDate) img) st1
  | None => st1
  end.

Definition handleRestoreImage (trashGroupIdx imageIdx : nat)
  (dateString : string) (st : State) : State :=
  let imageToRestore := imageAt (trash st) trashGroupIdx imageIdx in
  let newTrash := removeAt (trash st) trashGroupIdx imageIdx in
  let st1 := setTrash (fun _ => newTrash) st in
  match imageToRestore with
  | Some img => setImageGroups (unshiftIntoDate dateString [img]) st1
  | None => st1
  end.

Definition handlePermanentlyDeleteImage (trashGroupIdx imageIdx : nat)
  (st : State) : State :=
  setTrash (fun _ => removeAt (trash st) trashGroupIdx imageIdx) st.

(** What can happen to the component, one event at a time. *)
Inductive Event :=
| Enqueue (taskDetails : TaskDetails) (taskId' dateString : string)
| QueueEffect
| IntervalFires (taskId' : string)
| GatewaySettles (b : Gateway.Backend)
| TimeoutFires
| DeleteImage (groupIdx imageIdx : nat) (localeDate : string)
| RestoreImage (trashGroupIdx imageIdx : nat) (dateString : string)
| PermanentlyDeleteImage (trashGroupIdx imageIdx : nat).

Definition step (st : State) (e : Event) : State :=
  match e with
  | Enqueue taskDetails taskId' dateString =>
      enqueueTask taskDetails taskId' dateString st
  | QueueEffect => processQueue st
  | IntervalFires taskId' =>
      match mapGet taskId' (progressIntervals st) with
      | Some _ => setImageGroups (tick taskId') st
      | None => st
      end
  | GatewaySettles b =>
      match awaiting st with
      | [] => st
      | task :: others =>
          processQueueResume task (snd (gatewayCall b task))
            (setAwaiting (fun _ => others) st)
      end
  | TimeoutFires =>
      match pendingClears st with
      | [] => st
      | taskId' :: others =>
          let st1 :=
            setImageGroups (updateImageStatus taskId' clearUpdates) st in
          {| taskQueue := taskQueue st1; isProcessing := isProcessing st1;
             imageGroups := imageGroups st1; trash := trash st1;
             appError := appError st1;
             progressIntervals := progressIntervals st1;
             nextIntervalId := nextIntervalId st1;
             pendingClears := others; awaiting := awaiting st1 |}
      end
  | DeleteImage groupIdx imageIdx localeDate =>
      handleDeleteImage groupIdx imageIdx localeDate st
  | RestoreImage trashGroupIdx imageIdx dateString =>
      handleRestoreImage trashGroupIdx imageIdx dateString st
  | PermanentlyDeleteImage trashGroupIdx imageIdx =>
      handlePermanentlyDeleteImage trashGroupIdx imageIdx st
  end.

Definition run (st : State) (events : list Event) : State :=
  fold_left step events st.

(** The states the component can be in, from any stored gallery and
    trash. *)
Inductive reachable : State -> Prop :=
| reach_initial storedGroups storedTrash :
    reachable (initial storedGroups storedTrash)
| reach_step st e : reachable st -> reachable (step st e).

(** All the images of a collection, in display order. *)
Definition allImages (groups : list ImageGroup) : list ImageItem :=
  flat_map images groups.

(** The images of one task in a collection, in display order. *)
Definition imagesOfTask (task_id' : string) (groups : list ImageGroup)
  : list ImageItem :=
  filter (hasTaskId task_id') (allImages groups).

End App.

(* ================================================================== *)
(** ** components/VipMode.tsx: the batch runner *)
(* ================================================================== *)

Module Vip.
Import JS.

Inductive Status := pending | generating | completed | failed.

Definition Status_eqb (a b : Status) : bool :=
  match a, b with
  | pending, pending | generating, generating
  | completed, completed | failed, failed => true
  | _, _ => false
  end.

Record VipTask := {
  id : nat;
  name : string;
  prompt : string;
  status : Status;
  imageUrl : option string;
  error : option string
}.

(** What one invocation of [processGenerationQueue] closes over: the
    values of the render that created the callback.  They do not change
    while the invocation runs. *)
Record Closure := {
  cl_tasks : list VipTask;
  cl_isPaused : bool;
  cl_mainStylePrompt : string
}.

(** An invocation of [processGenerationQueue] suspended at
    [await generateStyledImages(...)] of iteration [at_i]. *)
Record Suspended := {
  closure : Closure;
  at_i : nat;
  at_task : VipTask
}.

(** The state of [VipMode] that the batch runner touches.
    [generationIndex] is [generationIndexRef.current]; [loops] are the
    suspended invocations of [processGenerationQueue]; [singles] are the
    task ids of the suspended invocations of [handleGenerateSingleTask]. *)
Record State := {
  tasks : list VipTask;
  isGenerating : bool;
  isPaused : bool;
  generationIndex : nat;
  mainStylePrompt : string;
  loops : list Suspended;
  singles : list nat
}.

Definition setTasks (f : list VipTask -> list VipTask) (st : State) : State :=
  {| tasks := f (tasks st); isGenerating := isGenerating st;
     isPaused := isPaused st; generationIndex := generationIndex st;
     mainStylePrompt := mainStylePrompt st;
     loops := loops st; singles := singles st |}.

Definition setIsGenerating (b : bool) (st : State) : State :=
  {| tasks := tasks st; isGenerating := b;
     isPaused := isPaused st; generationIndex := generationIndex st;
     mainStylePrompt := mainStylePrompt st;
     loops := loops st; singles := singles st |}.

Definition setIsPaused (b : bool) (st : State) : State :=
  {| tasks := tasks st; isGenerating := isGenerating st;
     isPaused := b; generationIndex := generationIndex st;
     mainStylePrompt := mainStylePrompt st;
     loops := loops st; singles := singles st |}.

Definition setGenerationIndex (i : nat) (st : State) : State :=
  {| tasks := tasks st; isGenerating := isGenerating st;
     isPaused := isPaused st; generationIndex := i;
     mainStylePrompt := mainStylePrompt st;
     loops := loops st; singles := singles st |}.

Definition setLoops (f : list Suspended -> list Suspended) (st : State)
  : State :=
  {| tasks := tasks st; isGenerating := isGenerating st;
     isPaused := isPaused st; generationIndex := generationIndex st;
     mainStylePrompt := mainStylePrompt st;
     loops := f (loops st); singles := singles st |}.

Definition setSingles (f : list nat -> list nat) (st : State) : State :=
  {| tasks := tasks st; isGenerating := isGenerating st;
     isPaused := isPaused st; generationIndex := generationIndex st;
     mainStylePrompt := mainStylePrompt st;
     loops := loops st; singles := f (singles st) |}.

(** The state after [handleAnalyze] stored the analysed prompts. *)
Definition analysed (prompts : list (string * string)) : State :=
  {| tasks := mapi (fun p i =>
                      {| id := i; name := fst p; prompt := snd p;
                         status := pending; imageUrl := None;
                         error := None |})
                   prompts;
     isGenerating := false; isPaused := false; generationIndex := 0;
     mainStylePrompt := ""; loops := []; singles := [] |}.

Definition quotaMessage : string :=
  "API 配额已用尽。请检查您的 Google AI 计划和账单详情。".
Definition serverMessage : string :=
  "生成失败 (服务器错误)。请检查您的 API 密钥设置或稍后重试。".
Definition unknownMessage : string := "发生未知错误。请稍后再试。".

Definition mentionsQuota (s : string) : bool :=
  includes "429" s || includes "RESOURCE_EXHAUSTED" s || includes "quota" s.

Definition getErrorMessage (err : Thrown) : string :=
  match th_kind err with
  | IsString s => if mentionsQuota s then quotaMessage else s
  | kind =>
      match th_error err with
      | Some apiError =>
          if String.eqb (toUpperCase (api_status apiError))
               "RESOURCE_EXHAUSTED"
          then quotaMessage
          else match api_code apiError with
               | Some 500%Z => serverMessage
               | _ => "生成失败: " ++ api_message apiError
               end
      | None =>
          match kind with
          | IsError errText =>
              if mentionsQuota errText then quotaMessage else errText
          | _ => unknownMessage
          end
      end
  end.

(** The three updaters of one task's record. *)
Definition markGenerating (clearError : bool) (t : VipTask) : VipTask :=
  {| id := id t; name := name t; prompt := prompt t; status := generating;
     imageUrl := imageUrl t;
     error := if clearError then None else error t |}.

Definition markCompleted (images : list string) (t : VipTask) : VipTask :=
  {| id := id t; name := name t; prompt := prompt t; status := completed;
     imageUrl := nth_error images 0; error := error t |}.

Definition markFailed (errorMessage : string) (t : VipTask) : VipTask :=
  {| id := id t; name := name t; prompt := prompt t; status := failed;
     imageUrl := imageUrl t; error := Some errorMessage |}.

(** [prev.map(t => t.id === taskId ? f(t) : t)]. *)
Definition updateTask (taskId : nat) (f : VipTask -> VipTask)
  (prev : list VipTask) : list VipTask :=
  map (fun t => if (id t =? taskId)%nat then f t else t) prev.

(** The [for] loop of [processGenerationQueue] from iteration [i], where
    [remaining] is what the closure's [tasks] holds from index [i] on; it
    runs until the next [await] (the suspended invocation is returned) or
    until the function returns. *)
Fixpoint forLoop (cl : Closure) (remaining : list VipTask) (i : nat)
  (st : State) : State * option Suspended :=
  match remaining with
  | [] =>
      (setGenerationIndex 0 (setIsGenerating false st), None)
  | task :: rest =>
      if cl_isPaused cl
      then (setIsGenerating false (setGenerationIndex i st), None)
      else if Status_eqb (status task) completed
      then forLoop cl rest (S i) st
      else (setTasks (updateTask (id task) (markGenerating false)) st,
            Some {| closure := cl; at_i := i; at_task := task |})
  end.

Definition suspend (r : State * option Suspended) : State :=
  match r with
  | (st, Some s) => setLoops (fun l => (l ++ [s])%list) st
  | (st, None) => st
  end.

(** One invocation of [processGenerationQueue], by the callback of the
    current render, up to its first [await generateStyledImages(...)]. *)
Definition processGenerationQueue (st : State) : State :=
  let cl := {| cl_tasks := tasks st; cl_isPaused := isPaused st;
               cl_mainStylePrompt := mainStylePrompt st |} in
  if cl_isPaused cl then setIsGenerating false st
  else
    let st1 := setIsGenerating true st in
    let i := generationIndex st1 in
    suspend (forLoop cl (skipn i (cl_tasks cl)) i st1).

(** A suspended invocation continues: the [try]/[catch] around the call,
    then the next iterations. *)
Definition loopResume (s : Suspended) (outcome : Thrown + list string)
  (st : State) : State :=
  let st1 :=
    match outcome with
    | inr images =>
        setTasks (updateTask (id (at_task s)) (markCompleted images)) st
    | inl err =>
        setTasks (updateTask (id (at_task s))
                    (markFailed (getErrorMessage err))) st
    end in
  suspend (forLoop (closure s)
             (skipn (S (at_i s)) (cl_tasks (closure s))) (S (at_i s)) st1).

(** The effect on [isGenerating, isPaused, processGenerationQueue]. *)
Definition batchEffect (st : State) : State :=
  if isGenerating st && negb (isPaused st)
  then processGenerationQueue st else st.

Definition handleGenerateAll (st : State) : State :=
  setIsGenerating true (setIsPaused false (setGenerationIndex 0 st)).

Definition handlePause (st : State) : State := setIsPaused true st.

Definition handleResume (st : State) : State :=
  setIsGenerating true (setIsPaused false st).

(** [handleGenerateSingleTask] up to its
    [await generateStyledImages(...)]. *)
Definition handleGenerateSingleTask (taskId : nat) (st : State) : State :=
  match find (fun t => (id t =? taskId)%nat) (tasks st) with
  | None => st
  | Some task =>
      if isGenerating st then st
      else setSingles (fun l => (l ++ [taskId])%list)
             (setTasks (updateTask taskId (markGenerating true)) st)
  end.

Definition singleResume (taskId : nat) (outcome : Thrown + list string)
  (st : State) : State :=
  match outcome with
  | inr images => setTasks (updateTask taskId (markCompleted images)) st
  | inl err =>
      setTasks (updateTask taskId (markFailed (getErrorMessage err))) st
  end.

Definition withPrompt (t : VipTask) (p : string) : VipTask :=
  {| id := id t; name := name t; prompt := p; status := status t;
     imageUrl := imageUrl t; error := error t |}.

Definition handleUpdateTaskPrompt (taskId : nat) (newPrompt : string)
  (st : State) : State :=
  setTasks (updateTask taskId (fun t => withPrompt t newPrompt)) st.

(** The updater of [handleTranslateAll]:
    [translatedPrompts[i] || originalPrompts[i]] for every task of
    [prevTasks]. *)
Definition applyTranslation (originalPrompts translatedPrompts : list string)
  (prevTasks : list VipTask) : list VipTask :=
  mapi (fun task i =>
          withPrompt task
            (or_else (nth_error translatedPrompts i)
                     (nth i originalPrompts "")))
       prevTasks.

(** [handleTranslateAll], with no other update of [tasks] between its
    call and its [setTasks].  A rejected translation call is not caught:
    [setTasks] is not reached. *)
Definition handleTranslateAll (answer : string -> Settled string)
  (st : State) : State :=
  if (List.length (tasks st) =? 0)%nat || isGenerating st then st
  else
    let originalPrompts := map prompt (tasks st) in
    match Gateway.translatePromptsToEnglish answer originalPrompts with
    | inl _ => st
    | inr translatedPrompts =>
        setTasks (applyTranslation originalPrompts translatedPrompts) st
    end.

(** [l] without its [k]-th element, and that element. *)
Fixpoint take (A : Type) (k : nat) (l : list A) : option (A * list A) :=
  match l, k with
  | [], _ => None
  | x :: rest, O => Some (x, rest)
  | x :: rest, S j =>
      match take j rest with
      | Some (y, rest') => Some (y, x :: rest')
      | None => None
      end
  end.

Inductive Event :=
| GenerateAll
| Pause
| Resume
| BatchEffect
| LoopSettles (k : nat) (outcome : Thrown + list string)
| GenerateSingle (taskId : nat)
| SingleSettles (k : nat) (outcome : Thrown + list string)
| UpdateTaskPrompt (taskId : nat) (newPrompt : string)
| TranslateAll (answer : string -> Settled string).

Definition step (st : State) (e : Event) : State :=
  match e with
  | GenerateAll => handleGenerateAll st
  | Pause => handlePause st
  | Resume => handleResume st
  | BatchEffect => batchEffect st
  | LoopSettles k outcome =>
      match take k (loops st) with
      | Some (s, others) =>
          loopResume s outcome (setLoops (fun _ => others) st)
      | None => st
      end
  | GenerateSingle taskId => handleGenerateSingleTask taskId st
  | SingleSettles k outcome =>
      match take k (singles st) with
      | Some (taskId, others) =>
          singleResume taskId outcome (setSingles (fun _ => others) st)
      | None => st
      end
  | UpdateTaskPrompt taskId newPrompt =>
      handleUpdateTaskPrompt taskId newPrompt st
  | TranslateAll answer => handleTranslateAll answer st
  end.

Definition run (st : State) (events : list Event) : State :=
  fold_left step events st.

(** The gateway calls outstanding in a state. *)
Definition outstanding (st : State) : nat :=
  List.length (loops st) + List.length (singles st).

Definition generatingTasks (st : State) : list VipTask :=
  filter (fun t => Status_eqb (status t) generating) (tasks st).

End Vip.

Unset Implicit Arguments.
Open Scope nat_scope.

(* ================================================================== *)
(** ** Notions used to state the properties *)
(* ================================================================== *)

Section Notions.
Import JS App.

(** What a group shows of its images when only their fields change: its
    date and the ids of its images, in order. *)
Definition layout (groups : list ImageGroup) : list (string * list string) :=
  map (fun g => (date g, map id (images g))) groups.

(** The images of a task, each completed with the artifact paired with
    it; pairing stops at the shorter list. *)
Definition completeAll (task : Task) (placeholders : list ImageItem)
  (artifacts : list string) : list ImageItem :=
  map (fun p => completeImage task (fst p) (snd p))
      (combine placeholders artifacts).

(** What the gallery becomes when the awaited call settles. *)
Definition settledGroups (task : Task) (outcome : Thrown + list string)
  (groups : list ImageGroup) : list ImageGroup :=
  match outcome with
  | inr newImages => fst (reconcile task groups newImages)
  | inl err =>
      updateImageStatus (task_id task) (failedUpdates (errorMessageOf err))
        groups
  end.

(** The whole passage of the head task through the queue: the effect
    dispatches it, the interval fires [ticks] times, the call settles. *)
Definition passage (task : Task) (ticks : nat) (b : Gateway.Backend)
  : list Event :=
  (QueueEffect :: repeat (IntervalFires (task_id task)) ticks
     ++ [GatewaySettles b])%list.

(** Generating, with a progress between 0 and 95. *)
Definition inFlight (img : ImageItem) : Prop :=
  status img = generating
  /\ exists p, progress img = Some p /\ (0 <= p)%Q /\ (p <= 95)%Q.

(** A suspended loop of the batch runner whose closure holds
    [isPaused = false]. *)
Definition unpaused (s : Vip.Suspended) : Prop :=
  Vip.cl_isPaused (Vip.closure s) = false.

End Notions.

(* ================================================================== *)
(** ** Scenarios *)
(* ================================================================== *)

(** A backend that answers every text-only request with the given images
    and refuses every style-transfer call. *)
Definition textBackend (imgs : list string) : Gateway.Backend :=
  {| Gateway.generateContent := fun _ _ => JS.Rejected (JS.newError "offline");
     Gateway.generateImages := fun _ =>
       JS.Resolved {| Gateway.generatedImages := Some imgs |} |}.

(** A backend for the style-transfer path whose call number [i] returns an
    image exactly when [answers i] is true. *)
Definition styleBackend (answers : nat -> bool) : Gateway.Backend :=
  {| Gateway.generateContent := fun i _ =>
       JS.Resolved
         {| Gateway.blockReason := None;
            Gateway.imagePart :=
              if answers i
              then Some {| Gateway.mimeType := "image/png";
                           Gateway.data := "IMG" ++ JS.string_of_nat i |}
              else None |};
     Gateway.generateImages := fun _ => JS.Rejected (JS.newError "offline") |}.

Definition referencePart : Gateway.InlineData :=
  {| Gateway.mimeType := "image/png"; Gateway.data := "REF" |}.

(** A request for [n] images of a cat, with or without a reference image. *)
Definition catRequest (n : nat) (withReference : bool) : App.TaskDetails :=
  {| App.td_contentPrompt := "a cat";
     App.td_numImages := n;
     App.td_aspectRatio := "16:9";
     App.td_styleDescription := None;
     App.td_referenceImageParts :=
       if withReference then Some [referencePart] else None |}.

Definition catTask (taskId' : string) (n : nat) (withReference : bool)
  : App.Task :=
  {| App.task_id := taskId';
     App.task_contentPrompt := "a cat";
     App.numImages := n;
     App.aspectRatio := "16:9";
     App.task_styleDescription := None;
     App.referenceImageParts :=
       if withReference then Some [referencePart] else None |}.

(** The empty store, one request for two images submitted. *)
Definition twoQueued (withReference : bool) : App.State :=
  App.run (App.initial [] [])
    [App.Enqueue (catRequest 2 withReference) "task-a" "day 1"].

(** The two placeholders of the submitted request, dispatched. *)
Definition twoDispatched : App.State :=
  App.run (twoQueued false) [App.QueueEffect].

(** A completed image, as the gallery stores it. *)
Definition storedImage (id' url' : string) : App.ImageItem :=
  {| App.id := id'; App.name := "a cat"; App.status := App.completed;
     App.url := Some url'; App.progress := None; App.taskId := None;
     App.styleDescription := "oil painting"; App.contentPrompt := "a cat";
     App.error := None |}.

Definition storedGallery : list App.ImageGroup :=
  [ {| App.date := "day 1";
       App.images := [storedImage "img-0" "data:image/jpeg;base64,AAAA";
                      storedImage "img-1" "data:image/jpeg;base64,BBBB"] |} ].

(** Three prompts out of the analysis of a document. *)
Definition threeScenes : Vip.State :=
  Vip.analysed [("BG-01-01", "a forest scene.");
                ("BG-01-02", "a castle.");
                ("BG-01-03", "a harbour.")].

Definition artifact (n : string) : JS.Thrown + list string :=
  inr ["data:image/png;base64," ++ n].

(** A first session: one image requested on day 1, the task dispatched,
    and the page closed while the call is outstanding. *)
Definition firstSession : App.State :=
  App.run (App.initial [] [])
    [App.Enqueue (catRequest 1 false) "task-a" "day 1"; App.QueueEffect].

(** A second session on the stored gallery: one image requested on day 2,
    and generated. *)
Definition secondSession : App.State :=
  App.run (App.initial (App.imageGroups firstSession) (App.trash firstSession))
    (App.Enqueue (catRequest 1 false) "task-b" "day 2"
     :: passage (catTask "task-b" 1 false) 3 (textBackend ["BBBB"]))%list.

(** A backend for the style-transfer path whose call number [k] answers
    with a block reason; every other call returns an image. *)
Definition blockingBackend (k : nat) : Gateway.Backend :=
  {| Gateway.generateContent := fun i _ =>
       JS.Resolved
         {| Gateway.blockReason := if i =? k then Some "SAFETY" else None;
            Gateway.imagePart :=
              if i =? k then None
              else Some {| Gateway.mimeType := "image/png";
                           Gateway.data := "IMG" ++ JS.string_of_nat i |} |};
     Gateway.generateImages := fun _ => JS.Rejected (JS.newError "offline") |}.

(** The images of a collection that do not carry the task id [t], in
    display order. *)
Definition othersThan (t : string) (groups : list App.ImageGroup)
  : list App.ImageItem :=
  filter (fun img => negb (App.hasTaskId t img)) (App.allImages groups).

(** Completed or failed: the two terminal statuses of an image. *)
Definition terminal (img : App.ImageItem) : Prop :=
  App.status img = App.completed \/ App.status img = App.failed.

(** The empty store after two submissions: two images, then one. *)
Definition twoTasksQueued : App.State :=
  App.run (App.initial [] [])
    [App.Enqueue (catRequest 2 false) "task-a" "day 1";
     App.Enqueue (catRequest 1 false) "task-b" "day 1"].

(** The two queued tasks, the first with a backend that returns two images,
    the second with a backend that returns none. *)
Definition twoJobs : list (App.Task * Gateway.Backend) :=
  [(catTask "task-a" 2 false, textBackend ["AAAA"; "BBBB"]);
   (catTask "task-b" 1 false, textBackend [])].

(** One group per date, as the handlers keep it. *)
Definition uniqueDates (groups : list App.ImageGroup) : Prop :=
  NoDup (map App.date groups).

(** No group without images. *)
Definition noEmptyGroup (groups : list App.ImageGroup) : Prop :=
  Forall (fun g => App.images g <> []) groups.

(** A trash with one image, deleted on an earlier day. *)
Definition storedTrash : list App.ImageGroup :=
  [ {| App.date := App.trashDate "2025/1/1";
       App.images := [storedImage "img-9" "data:image/jpeg;base64,CCCC"] |} ].

(** A placeholder of a dispatched task, as [startProgress] leaves it. *)
Definition startedImage : App.ImageItem :=
  App.applyUpdates (App.placeholder "task-a" "a cat" 0) App.startUpdates.




(** What a single regeneration makes of a task: marked generating with its
    error cleared, then completed or failed. *)
Definition singleSettled (outcome : JS.Thrown + list string) (t : Vip.VipTask)
  : Vip.VipTask :=
  match outcome with
  | inr images => Vip.markCompleted images (Vip.markGenerating true t)
  | inl err =>
      Vip.markFailed (Vip.getErrorMessage err) (Vip.markGenerating true t)
  end.


(** *** Gallery edits outside the queue *)




(** [image.name = newName]. *)
Definition withName (image : App.ImageItem) (newName : string)
  : App.ImageItem :=
  {| App.id := App.id image;
     App.name := newName;
     App.status := App.status image;
     App.url := App.url image;
     App.progress := App.progress image;
     App.taskId := App.taskId image;
     App.styleDescription := App.styleDescription image;
     App.contentPrompt := App.contentPrompt image;
     App.error := App.error image |}.

(** [handleRenameImage]: [newGroups[groupIdx]?.images[imageIdx]] is looked
    up and, when there is one, its [name] is assigned. *)
Definition handleRenameImage (groupIdx imageIdx : nat) (newName : string)
  (st : App.State) : App.State :=
  App.setImageGroups
    (fun prevGroups =>
       match App.imageAt prevGroups groupIdx imageIdx with
       | Some _ =>
           JS.update_at groupIdx
             (fun group =>
                App.withImages group
                  (JS.update_at imageIdx
                     (fun image => withName image newName)
                     (App.images group)))
             prevGroups
       | None => prevGroups
       end) st.


(* ================================================================== *)
(** ** Facts about the gateway *)
(* ================================================================== *)

Section GatewayFacts.
Import JS Gateway.

Lemma dataUrl_truthy mime payload : truthy (dataUrl mime payload) = true.
Proof. reflexivity. Qed.

(** Path 1 only ever appends data URLs to what it has collected. *)
Lemma styleLoop_truthy b req remaining : forall i acc sent imgs,
  Forall (fun s => truthy s = true) acc ->
  styleLoop b req remaining i acc = (sent, inr imgs) ->
  Forall (fun s => truthy s = true) imgs.
Proof.
  induction remaining as [|r IH]; intros i acc sent imgs Hacc Hrun; simpl in Hrun.
  - inversion Hrun; subst; assumption.
  - destruct (generateContent b i req) as [response|e]; [|discriminate].
    destruct (truthy_opt (blockReason response)); [discriminate|].
    destruct (styleLoop b req r (S i) _) as [sent' r'] eqn:Hrest.
    inversion Hrun; subst.
    eapply IH; [|exact Hrest].
    destruct (imagePart response); [|assumption].
    apply Forall_app; split; [assumption|].
    constructor; [apply dataUrl_truthy|constructor].
Qed.

(** Path 1 collects at most one image per call. *)
Lemma styleLoop_length b req remaining : forall i acc sent imgs,
  styleLoop b req remaining i acc = (sent, inr imgs) ->
  List.length imgs <= List.length acc + remaining.
Proof.
  induction remaining as [|r IH]; intros i acc sent imgs Hrun; simpl in Hrun.
  - inversion Hrun; subst; lia.
  - destruct (generateContent b i req) as [response|e]; [|discriminate].
    destruct (truthy_opt (blockReason response)); [discriminate|].
    destruct (styleLoop b req r (S i) _) as [sent' r'] eqn:Hrest.
    inversion Hrun; subst.
    apply IH in Hrest.
    destruct (imagePart response); [rewrite length_app in Hrest; simpl in Hrest|];
      lia.
Qed.

(** A resolved [generateStyledImages] carries at least one artifact, and
    every artifact is a non-empty string. *)
Lemma generateStyledImages_resolved b style userPrompt n ar refs imgs :
  snd (generateStyledImages b style userPrompt n ar refs) = inr imgs ->
  imgs <> [] /\ Forall (fun s => truthy s = true) imgs.
Proof.
  unfold generateStyledImages.
  assert (Htext :
    snd ([ImagesRequest (imagesRequest style userPrompt n ar)],
         match generateImages b (imagesRequest style userPrompt n ar) with
         | Rejected e => inl e
         | Resolved response =>
             match generatedImages response with
             | None | Some [] => inl (newError noImagesMessage)
             | Some imgs0 =>
                 inr (map (fun bytes => dataUrl "image/jpeg" bytes) imgs0)
             end
         end) = inr imgs ->
    imgs <> [] /\ Forall (fun s => truthy s = true) imgs).
  { simpl. destruct (generateImages b _) as [response|e]; [|discriminate].
    destruct (generatedImages response) as [[|x xs]|]; try discriminate.
    intros H; inversion H; subst; split; [discriminate|].
    apply Forall_forall; intros s Hs.
    change (In s (map (fun bytes => dataUrl "image/jpeg" bytes) (x :: xs)))
      in Hs.
    apply in_map_iff in Hs; destruct Hs as [bytes [<- _]]; reflexivity. }
  destruct refs as [[|p ps]|]; try exact Htext.
  destruct (styleLoop b _ n 0 []) as [sent [e|[|x xs]]] eqn:Hloop;
    simpl; try discriminate.
  intros H; inversion H; subst; split; [discriminate|].
  eapply styleLoop_truthy; [|exact Hloop]; constructor.
Qed.

(** With reference images the gateway resolves with at most as many
    artifacts as were requested. *)
Lemma generateStyledImages_with_references b style userPrompt n ar p ps imgs :
  snd (generateStyledImages b style userPrompt n ar (Some (p :: ps)))
    = inr imgs ->
  List.length imgs <= n.
Proof.
  unfold generateStyledImages.
  destruct (styleLoop b _ n 0 []) as [sent [e|[|x xs]]] eqn:Hloop;
    simpl; try discriminate.
  intros H. inversion H; subst.
  apply styleLoop_length in Hloop. simpl in Hloop. exact Hloop.
Qed.

(** Zero artifacts is never a resolved value: the gateway throws. *)
Lemma generateStyledImages_never_empty b style userPrompt n ar refs :
  snd (generateStyledImages b style userPrompt n ar refs) <> inr [].
Proof.
  intros H. apply generateStyledImages_resolved in H.
  destruct H as [H _]; apply H; reflexivity.
Qed.

Lemma mapAspectRatio_never_3_2 ar : mapAspectRatio ar <> "3:2".
Proof.
  unfold mapAspectRatio.
  destruct (String.eqb ar "16:9"); [discriminate|].
  destruct (String.eqb ar "9:16"); [discriminate|].
  destruct (String.eqb ar "3:2"); discriminate.
Qed.

End GatewayFacts.

(** C9. On the text-only path of [generateStyledImages] (no reference
    images: the argument is undefined or an empty array) exactly one request
    goes to the backend, a [generateImages] request whose [aspectRatio] is
    [mapAspectRatio] of the requested one: '3:2' is sent as '4:3', '16:9'
    and '9:16' are passed through, and the value sent is never '3:2'. *)
Theorem C9_text_only_aspect_ratio :
  forall (b : Gateway.Backend) (style userPrompt : string) (n : nat)
         (ar : string) (refs : option (list Gateway.InlineData)),
    refs = None \/ refs = Some [] ->
    exists req,
      fst (Gateway.generateStyledImages b style userPrompt n ar refs)
        = [Gateway.ImagesRequest req]
      /\ Gateway.gi_aspectRatio req = Gateway.mapAspectRatio ar
      /\ Gateway.gi_aspectRatio req <> "3:2"
      /\ (ar = "3:2" -> Gateway.gi_aspectRatio req = "4:3")
      /\ (ar = "16:9" -> Gateway.gi_aspectRatio req = "16:9")
      /\ (ar = "9:16" -> Gateway.gi_aspectRatio req = "9:16").
Proof.
  intros b style userPrompt n ar refs Hrefs.
  exists (Gateway.imagesRequest style userPrompt n ar).
  split.
  - destruct Hrefs as [-> | ->]; reflexivity.
  - simpl. split; [reflexivity|]. split; [apply mapAspectRatio_never_3_2|].
    repeat split; intros ->; reflexivity.
Qed.

Lemma C9_witness :
  exists req,
    fst (Gateway.generateStyledImages (textBackend ["AAAA"]) "oil painting"
           "a cat" 2 "3:2" None)
      = [Gateway.ImagesRequest req]
    /\ Gateway.gi_aspectRatio req = Gateway.mapAspectRatio "3:2"
    /\ Gateway.gi_aspectRatio req <> "3:2"
    /\ ("3:2" = "3:2" -> Gateway.gi_aspectRatio req = "4:3")
    /\ ("3:2" = "16:9" -> Gateway.gi_aspectRatio req = "16:9")
    /\ ("3:2" = "9:16" -> Gateway.gi_aspectRatio req = "9:16").
Proof.
  apply (C9_text_only_aspect_ratio (textBackend ["AAAA"]) "oil painting"
           "a cat" 2 "3:2" None).
  left; reflexivity.
Defined.

(* ================================================================== *)
(** ** Gallery and trash *)
(* ================================================================== *)

Section Collections.
Import JS App.

Lemma filteri_from_miss (A : Type) (k : nat) : forall (l : list A) (i0 : nat),
  k < i0 \/ nth_error l (k - i0) = None ->
  filteri_from (fun _ iIdx => negb (iIdx =? k)) i0 l = l.
Proof.
  induction l as [|x rest IH]; intros i0 H; simpl; [reflexivity|].
  destruct (Nat.eqb_spec i0 k) as [->|Hne].
  - destruct H as [H|H]; [lia|]. rewrite Nat.sub_diag in H. discriminate.
  - simpl. f_equal. apply IH.
    destruct H as [H|H]; [left; lia|].
    destruct (Nat.lt_ge_cases k i0) as [Hlt|Hge]; [left; lia|right].
    replace (k - i0) with (S (k - S i0)) in H by lia. exact H.
Qed.

Lemma allImages_filter_nonEmpty groups :
  allImages (filter nonEmpty groups) = allImages groups.
Proof.
  unfold allImages.
  induction groups as [|g rest IH]; simpl; [reflexivity|].
  unfold nonEmpty at 1.
  destruct (images g) as [|x xs] eqn:Himgs; simpl.
  - exact IH.
  - rewrite Himgs, IH. reflexivity.
Qed.

(** The groups [removeAt] keeps all have an image. *)
Lemma removeAt_prunes groups groupIdx imageIdx :
  Forall (fun g => images g <> []) (removeAt groups groupIdx imageIdx).
Proof.
  unfold removeAt. apply Forall_forall. intros g Hg.
  apply filter_In in Hg. destruct Hg as [_ Hg].
  unfold nonEmpty in Hg. destruct (images g); [discriminate|discriminate].
Qed.

Lemma mapi_from_miss groupIdx imageIdx : forall groups i0,
  groupIdx < i0 \/
  match nth_error groups (groupIdx - i0) with
  | Some group => nth_error (images group) imageIdx = None
  | None => True
  end ->
  allImages
    (mapi_from
       (fun group gIdx =>
          if negb (gIdx =? groupIdx) then group
          else withImages group
                 (filteri (fun _ iIdx => negb (iIdx =? imageIdx))
                    (images group)))
       i0 groups)
  = allImages groups.
Proof.
  unfold allImages.
  induction groups as [|g rest IH]; intros i0 H; simpl; [reflexivity|].
  rewrite IH.
  - f_equal. destruct (Nat.eqb_spec i0 groupIdx) as [->|Hne]; simpl;
      [|reflexivity].
    destruct H as [H|H]; [lia|].
    rewrite Nat.sub_diag in H; simpl in H.
    unfold filteri. apply filteri_from_miss. right.
    rewrite Nat.sub_0_r. exact H.
  - destruct H as [H|H]; [left; lia|].
    destruct (Nat.lt_ge_cases groupIdx (S i0)) as [Hlt|Hge]; [left; lia|right].
    replace (groupIdx - i0) with (S (groupIdx - S i0)) in H by lia.
    exact H.
Qed.

Lemma removeAt_miss groups groupIdx imageIdx :
  imageAt groups groupIdx imageIdx = None ->
  allImages (removeAt groups groupIdx imageIdx) = allImages groups.
Proof.
  intros H. unfold removeAt. rewrite allImages_filter_nonEmpty.
  unfold mapi. apply mapi_from_miss. right.
  rewrite Nat.sub_0_r. unfold imageAt in H.
  destruct (nth_error groups groupIdx); [exact H|exact I].
Qed.

End Collections.

(** C10. When the indices name no image of the gallery (the group index or
    the image index is out of range), [handleDeleteImage] takes no image
    out of the gallery and returns the trash as it was: nothing is added to
    any trash group. *)
Theorem C10_delete_out_of_range :
  forall (st : App.State) (groupIdx imageIdx : nat) (localeDate : string),
    App.imageAt (App.imageGroups st) groupIdx imageIdx = None ->
    App.trash (App.handleDeleteImage groupIdx imageIdx localeDate st)
      = App.trash st
    /\ App.allImages
         (App.imageGroups
            (App.handleDeleteImage groupIdx imageIdx localeDate st))
       = App.allImages (App.imageGroups st).
Proof.
  intros st groupIdx imageIdx localeDate H.
  unfold App.handleDeleteImage. rewrite H. simpl.
  split; [reflexivity|]. apply removeAt_miss. exact H.
Qed.

Lemma C10_witness :
  App.imageAt (App.imageGroups (App.initial storedGallery [])) 0 2 = None
  /\ App.trash (App.handleDeleteImage 0 2 "2025/1/1"
                  (App.initial storedGallery []))
       = App.trash (App.initial storedGallery [])
  /\ App.allImages
       (App.imageGroups
          (App.handleDeleteImage 0 2 "2025/1/1" (App.initial storedGallery [])))
     = App.allImages (App.imageGroups (App.initial storedGallery [])).
Proof.
  split; [reflexivity|].
  apply (C10_delete_out_of_range (App.initial storedGallery []) 0 2 "2025/1/1").
  reflexivity.
Defined.

(* ================================================================== *)
(** ** How the queue's updaters act on the images of one task *)
(* ================================================================== *)

Section TaskImages.
Import JS App.

Variable t : string.

Lemma imagesOfTask_cons g groups :
  imagesOfTask t (g :: groups)
  = (filter (hasTaskId t) (images g) ++ imagesOfTask t groups)%list.
Proof. unfold imagesOfTask, allImages. simpl. apply filter_app. Qed.

Lemma hasTaskId_applyUpdates img u :
  hasTaskId t (applyUpdates img u) = hasTaskId t img.
Proof. reflexivity. Qed.

Lemma hasTaskId_tickImage t' img :
  hasTaskId t (tickImage t' img) = hasTaskId t img.
Proof. unfold tickImage. destruct (_ && _); reflexivity. Qed.

Lemma hasTaskId_completeImage task img d :
  hasTaskId t (completeImage task img d) = hasTaskId t img.
Proof. reflexivity. Qed.

(** Filtering after a map that does not change the filtered property. *)
Lemma filter_map_stable (A : Type) (p : A -> bool) (f : A -> A) (l : list A) :
  (forall x, p (f x) = p x) ->
  filter p (map f l) = map f (filter p l).
Proof.
  intros Hp. induction l as [|x rest IH]; simpl; [reflexivity|].
  rewrite Hp. destruct (p x); simpl; rewrite IH; reflexivity.
Qed.

Lemma allImages_map_images (f : ImageItem -> ImageItem) groups :
  allImages (map (fun group => withImages group (map f (images group))) groups)
  = map f (allImages groups).
Proof.
  unfold allImages. induction groups as [|g rest IH]; simpl; [reflexivity|].
  rewrite IH, map_app. reflexivity.
Qed.

(** [updateImageStatus t u] applies [u] to exactly the images of task
    [t]. *)
Lemma imagesOfTask_updateImageStatus u groups :
  imagesOfTask t (updateImageStatus t u groups)
  = map (fun img => applyUpdates img u) (imagesOfTask t groups).
Proof.
  unfold imagesOfTask, updateImageStatus.
  rewrite allImages_map_images, filter_map_stable.
  - apply map_ext_in. intros img Hin. apply filter_In in Hin.
    destruct Hin as [_ ->]. reflexivity.
  - intros img. destruct (hasTaskId t img) eqn:H; [|exact H].
    rewrite hasTaskId_applyUpdates. exact H.
Qed.

Lemma imagesOfTask_tick groups :
  imagesOfTask t (tick t groups) = map (tickImage t) (imagesOfTask t groups).
Proof.
  unfold imagesOfTask, tick.
  rewrite allImages_map_images, filter_map_stable; [reflexivity|].
  intros img. apply hasTaskId_tickImage.
Qed.

Lemma id_tickImage t' img : id (tickImage t' img) = id img.
Proof. unfold tickImage. destruct (_ && _); reflexivity. Qed.

Lemma status_tickImage t' img : status (tickImage t' img) = status img.
Proof. unfold tickImage. destruct (_ && _); reflexivity. Qed.

Lemma layout_map_images (f : ImageItem -> ImageItem) groups :
  (forall img, id (f img) = id img) ->
  layout (map (fun group => withImages group (map f (images group))) groups)
  = layout groups.
Proof.
  intros Hid. unfold layout. rewrite map_map. apply map_ext. intros g. simpl.
  rewrite map_map. f_equal. apply map_ext. exact Hid.
Qed.

Lemma layout_updateImageStatus t' u groups :
  layout (updateImageStatus t' u groups) = layout groups.
Proof.
  apply layout_map_images. intros img. destruct (hasTaskId t' img); reflexivity.
Qed.

Lemma layout_tick t' groups : layout (tick t' groups) = layout groups.
Proof. apply layout_map_images. intros img. apply id_tickImage. Qed.

(** *** The success branch *)

Lemma pop_snoc (A : Type) (l : list A) (x : A) :
  pop (l ++ [x]) = (Some x, l).
Proof.
  induction l as [|y rest IH]; [reflexivity|].
  change ((y :: rest) ++ [x])%list with (y :: (rest ++ [x]))%list.
  simpl. rewrite IH. destruct (rest ++ [x])%list eqn:E; [|reflexivity].
  destruct rest; discriminate.
Qed.

(** [pop] consumes the reversed list from its head. *)
Lemma pop_rev (A : Type) (r : list A) :
  pop (rev r) = (hd_error r, rev (tl r)).
Proof. destruct r as [|d r']; [reflexivity|]. simpl. apply pop_snoc. Qed.

Lemma combine_app_skipn (A B : Type) (l1 l2 : list A) : forall (r : list B),
  combine (l1 ++ l2) r
  = (combine l1 r ++ combine l2 (skipn (List.length l1) r))%list.
Proof.
  induction l1 as [|x l1' IH]; intros r; simpl; [reflexivity|].
  destruct r as [|d r']; simpl.
  - rewrite combine_nil. reflexivity.
  - rewrite IH. reflexivity.
Qed.

(** On one group: the images of the task take the artifacts from the tail
    of [newImages], in display order; the images of the task that get
    none are dropped by the filter. *)
Lemma assignImages_spec task : task_id task = t ->
  forall imgs r,
    Forall (fun img => status img = generating) (filter (hasTaskId t) imgs) ->
    Forall (fun s => truthy s = true) r ->
    snd (assignImages task imgs (rev r))
      = rev (skipn (List.length (filter (hasTaskId t) imgs)) r)
    /\ filter (hasTaskId t)
         (filter notGenerating (fst (assignImages task imgs (rev r))))
       = completeAll task (filter (hasTaskId t) imgs) r.
Proof.
  intros Ht. induction imgs as [|img rest IH]; intros r Hready Htruthy.
  - simpl. split; reflexivity.
  - simpl. unfold assignImage. rewrite Ht.
    simpl in Hready.
    destruct (hasTaskId t img) eqn:Himg.
    + pose proof (Forall_inv Hready) as Hgen.
      pose proof (Forall_inv_tail Hready) as Hready'. simpl in Hgen.
      rewrite pop_rev.
      destruct r as [|d r']; simpl.
      * destruct (IH [] Hready' Htruthy) as [IH1 IH2]. simpl in IH1, IH2.
        destruct (assignImages task rest []) as [rest' n2]; simpl in *.
        unfold notGenerating at 1. rewrite Hgen. simpl.
        split; [rewrite IH1; destruct (List.length _); reflexivity|].
        rewrite IH2. unfold completeAll. rewrite combine_nil. reflexivity.
      * pose proof (Forall_inv Htruthy) as Hd.
        pose proof (Forall_inv_tail Htruthy) as Htruthy'. simpl in Hd.
        rewrite Hd.
        destruct (IH r' Hready' Htruthy') as [IH1 IH2].
        destruct (assignImages task rest (rev r')) as [rest' n2]; simpl in *.
        split; [exact IH1|].
        rewrite hasTaskId_completeImage, Himg, IH2. reflexivity.
    + destruct (IH r Hready Htruthy) as [IH1 IH2].
      destruct (assignImages task rest (rev r)) as [rest' n2]; simpl in *.
      split; [exact IH1|].
      destruct (notGenerating img); simpl; [rewrite Himg|]; exact IH2.
Qed.

(** On the whole gallery. *)
Lemma reconcile_spec task : task_id task = t ->
  forall groups r,
    Forall (fun img => status img = generating) (imagesOfTask t groups) ->
    Forall (fun s => truthy s = true) r ->
    imagesOfTask t (fst (reconcile task groups (rev r)))
    = completeAll task (imagesOfTask t groups) r.
Proof.
  intros Ht. induction groups as [|g rest IH]; intros r Hready Htruthy.
  - reflexivity.
  - rewrite imagesOfTask_cons in Hready. apply Forall_app in Hready.
    destruct Hready as [Hg Hrest].
    simpl.
    destruct (assignImages_spec task Ht (images g) r Hg Htruthy) as [A1 A2].
    destruct (assignImages task (images g) (rev r)) as [mapped n1];
      simpl in A1, A2. subst n1.
    assert (Htr : Forall (fun s => truthy s = true)
                    (skipn (List.length (filter (hasTaskId t) (images g))) r)).
    { apply Forall_forall. intros s Hs.
      rewrite Forall_forall in Htruthy. apply Htruthy.
      rewrite <- (firstn_skipn (List.length (filter (hasTaskId t) (images g))) r).
      apply in_or_app. right. exact Hs. }
    specialize (IH _ Hrest Htr).
    destruct (reconcile task rest (rev _)) as [rest' n2]; simpl in IH.
    simpl. rewrite !imagesOfTask_cons. simpl. rewrite A2, IH.
    unfold completeAll. rewrite combine_app_skipn, map_app. reflexivity.
Qed.

Lemma completeAll_length task placeholders artifacts :
  List.length artifacts <= List.length placeholders ->
  List.length (completeAll task placeholders artifacts)
  = List.length artifacts.
Proof.
  intros H. unfold completeAll. rewrite length_map, length_combine. lia.
Qed.

Lemma completeAll_ids task : forall placeholders artifacts,
  List.length artifacts <= List.length placeholders ->
  map id (completeAll task placeholders artifacts)
  = firstn (List.length artifacts) (map id placeholders).
Proof.
  induction placeholders as [|p ps IH]; intros [|d ds] H; simpl in *;
    try reflexivity; try lia.
  f_equal. apply IH. lia.
Qed.

Lemma completeAll_urls task : forall placeholders artifacts,
  List.length artifacts <= List.length placeholders ->
  map url (completeAll task placeholders artifacts) = map Some artifacts.
Proof.
  induction placeholders as [|p ps IH]; intros [|d ds] H; simpl in *;
    try reflexivity; try lia.
  f_equal. apply IH. lia.
Qed.

Lemma completeAll_completed task placeholders artifacts :
  Forall (fun img => status img = completed /\ exists u, url img = Some u)
         (completeAll task placeholders artifacts).
Proof.
  unfold completeAll. apply Forall_forall. intros img Hin.
  apply in_map_iff in Hin. destruct Hin as [[p d] [<- _]]. simpl.
  split; [reflexivity|]. exists d. reflexivity.
Qed.

End TaskImages.

(* ================================================================== *)
(** ** One task through the queue *)
(* ================================================================== *)

Section QueueRun.
Import JS App.

Lemma run_app st l1 l2 : run st (l1 ++ l2) = run (run st l1) l2.
Proof. unfold run. apply fold_left_app. Qed.

(** Interval callbacks only rewrite the gallery, by some number of
    [tick]s. *)
Lemma run_intervals t : forall n st,
  exists k,
    imageGroups (run st (repeat (IntervalFires t) n))
      = Nat.iter k (tick t) (imageGroups st)
    /\ taskQueue (run st (repeat (IntervalFires t) n)) = taskQueue st
    /\ isProcessing (run st (repeat (IntervalFires t) n)) = isProcessing st
    /\ awaiting (run st (repeat (IntervalFires t) n)) = awaiting st
    /\ trash (run st (repeat (IntervalFires t) n)) = trash st
    /\ pendingClears (run st (repeat (IntervalFires t) n)) = pendingClears st.
Proof.
  induction n as [|n IH]; intros st.
  - exists 0. simpl. repeat split; reflexivity.
  - destruct (IH (step st (IntervalFires t)))
      as [k [H1 [H2 [H3 [H4 [H5 H6]]]]]].
    change (run st (repeat (IntervalFires t) (S n)))
      with (run (step st (IntervalFires t)) (repeat (IntervalFires t) n)).
    rewrite H1, H2, H3, H4, H5, H6. simpl.
    destruct (mapGet t (progressIntervals st)).
    + exists (S k). simpl. rewrite <- Nat.iter_succ_r.
      repeat split; reflexivity.
    + exists k. repeat split; reflexivity.
Qed.

Lemma iter_tick_layout t k groups :
  layout (Nat.iter k (tick t) groups) = layout groups.
Proof.
  induction k as [|k IH]; [reflexivity|].
  simpl. rewrite layout_tick. exact IH.
Qed.

Lemma iter_tick_ids t k groups :
  map id (imagesOfTask t (Nat.iter k (tick t) groups))
  = map id (imagesOfTask t groups).
Proof.
  induction k as [|k IH]; [reflexivity|].
  simpl. rewrite imagesOfTask_tick, map_map.
  rewrite <- IH. apply map_ext. intros img. apply id_tickImage.
Qed.

Lemma iter_tick_generating t k groups :
  Forall (fun img => status img = generating) (imagesOfTask t groups) ->
  Forall (fun img => status img = generating)
         (imagesOfTask t (Nat.iter k (tick t) groups)).
Proof.
  intros H. induction k as [|k IH]; [exact H|].
  simpl. rewrite imagesOfTask_tick. apply Forall_map.
  eapply Forall_impl; [|exact IH].
  intros img Himg. simpl. rewrite status_tickImage. exact Himg.
Qed.

Lemma started_generating t groups :
  Forall (fun img => status img = generating)
         (imagesOfTask t (updateImageStatus t startUpdates groups)).
Proof.
  rewrite imagesOfTask_updateImageStatus. apply Forall_map.
  apply Forall_forall. intros img _. reflexivity.
Qed.

Lemma started_ids t u groups :
  map id (imagesOfTask t (updateImageStatus t u groups))
  = map id (imagesOfTask t groups).
Proof.
  rewrite imagesOfTask_updateImageStatus, map_map. reflexivity.
Qed.

Lemma passage_result st task rest ticks b :
  isProcessing st = false ->
  awaiting st = [] ->
  taskQueue st = task :: rest ->
  exists k,
    imageGroups (run st (passage task ticks b))
      = updateImageStatus (task_id task) doneUpdates
          (settledGroups task (snd (gatewayCall b task))
             (Nat.iter k (tick (task_id task))
                (updateImageStatus (task_id task) startUpdates
                   (imageGroups st))))
    /\ taskQueue (run st (passage task ticks b)) = rest
    /\ isProcessing (run st (passage task ticks b)) = false
    /\ awaiting (run st (passage task ticks b)) = []
    /\ trash (run st (passage task ticks b)) = trash st
    /\ pendingClears (run st (passage task ticks b))
       = (pendingClears st ++ [task_id task])%list.
Proof.
  intros Hidle Hawait Hqueue.
  unfold passage.
  change (run st (QueueEffect :: ?l)) with (run (step st QueueEffect) l).
  rewrite run_app.
  set (st1 := step st QueueEffect).
  assert (H1 : imageGroups st1
               = updateImageStatus (task_id task) startUpdates (imageGroups st)
               /\ taskQueue st1 = task :: rest /\ awaiting st1 = [task]
               /\ trash st1 = trash st
               /\ pendingClears st1 = pendingClears st).
  { unfold st1. simpl. unfold processQueue. rewrite Hidle, Hqueue. simpl.
    rewrite Hawait, Hqueue. repeat split; reflexivity. }
  destruct H1 as [Hg1 [Hq1 [Ha1 [Ht1 Hp1]]]].
  destruct (run_intervals (task_id task) ticks st1)
    as [k [Hg2 [Hq2 [_ [Ha2 [Ht2 Hp2]]]]]].
  set (st2 := run st1 (repeat (IntervalFires (task_id task)) ticks)) in *.
  exists k. unfold run at 1 2 3 4 5 6. simpl. rewrite Ha2, Ha1.
  unfold processQueueResume.
  destruct (snd (gatewayCall b task)) as [err|newImages]; simpl;
    rewrite Hg2, Hg1, Hq2, Hq1, Ht2, Ht1, Hp2, Hp1;
    repeat split; reflexivity.
Qed.

End QueueRun.

(* ================================================================== *)
(** ** Single flight of the task queue *)
(* ================================================================== *)

Section SingleFlight.
Import JS App.

(** In every reachable state at most one invocation of [processQueue] is
    suspended at the gateway, and none is when the flag is down. *)
Lemma awaiting_invariant st :
  reachable st ->
  List.length (awaiting st) <= 1
  /\ (isProcessing st = false -> awaiting st = []).
Proof.
  induction 1 as [g tr | st e Hreach [IHlen IHidle]].
  - simpl. split; [lia|reflexivity].
  - destruct e; simpl.
    + split; [exact IHlen|exact IHidle].
    + unfold processQueue.
      destruct (isProcessing st) eqn:Hp; simpl.
      * split; [exact IHlen|]. rewrite Hp. discriminate.
      * destruct (taskQueue st) as [|task rest]; simpl.
        -- split; [exact IHlen|]. intros _. apply IHidle. reflexivity.
        -- rewrite (IHidle eq_refl). simpl. split; [lia|discriminate].
    + destruct (mapGet taskId' (progressIntervals st));
        (split; [exact IHlen|exact IHidle]).
    + destruct (awaiting st) as [|task others] eqn:Ha.
      * rewrite Ha. split; [simpl; lia|reflexivity].
      * simpl in IHlen.
        assert (others = [])
          by (destruct others; [reflexivity|simpl in IHlen; lia]).
        subst others. unfold processQueueResume.
        destruct (snd (gatewayCall b task)); simpl;
          (split; [lia|reflexivity]).
    + destruct (pendingClears st); (split; [exact IHlen|exact IHidle]).
    + unfold handleDeleteImage.
      destruct (imageAt (imageGroups st) groupIdx imageIdx);
        (split; [exact IHlen|exact IHidle]).
    + unfold handleRestoreImage.
      destruct (imageAt (trash st) trashGroupIdx imageIdx);
        (split; [exact IHlen|exact IHidle]).
    + split; [exact IHlen|exact IHidle].
Qed.

End SingleFlight.

(* ================================================================== *)
(** ** The task queue: success, failure, pairing *)
(* ================================================================== *)

Lemma twoQueued_reachable withReference :
  App.reachable (twoQueued withReference).
Proof. apply App.reach_step, App.reach_initial. Qed.

(** C1. A reachable, idle queue whose head task requests N images and has
    its N placeholders in the gallery: when the gateway call succeeds with
    K artifacts, K <= N (K is then positive), after the task has gone
    through the queue exactly K images carry its taskId, all of them
    completed with a url; they are the first K placeholders, the other
    N - K are gone from the gallery; no image of the task is generating;
    the task has left the queue and the queue is idle. *)
Theorem C1_partial_success :
  forall (st : App.State) (task : App.Task) (rest : list App.Task)
         (b : Gateway.Backend) (ticks : nat) (newImages : list string),
    App.reachable st ->
    App.isProcessing st = false ->
    App.taskQueue st = task :: rest ->
    List.length (App.imagesOfTask (App.task_id task) (App.imageGroups st))
      = App.numImages task ->
    snd (App.gatewayCall b task) = inr newImages ->
    List.length newImages <= App.numImages task ->
    let final := App.run st (passage task ticks b) in
    let placeholders :=
      App.imagesOfTask (App.task_id task) (App.imageGroups st) in
    let kept :=
      App.imagesOfTask (App.task_id task) (App.imageGroups final) in
    0 < List.length newImages
    /\ List.length kept = List.length newImages
    /\ Forall (fun img => App.status img = App.completed
                          /\ exists u, App.url img = Some u) kept
    /\ map App.id kept
       = firstn (List.length newImages) (map App.id placeholders)
    /\ List.length placeholders - List.length kept
       = App.numImages task - List.length newImages
    /\ Forall (fun img => App.status img <> App.generating) kept
    /\ App.taskQueue final = rest
    /\ App.isProcessing final = false.
Proof.
  intros st task rest b ticks newImages Hreach Hidle Hqueue HN Hcall HK.
  intros final placeholders kept.
  destruct (awaiting_invariant st Hreach) as [_ Hawait].
  destruct (passage_result st task rest ticks b Hidle (Hawait Hidle) Hqueue)
    as [k [Hg [Hq [Hp _]]]].
  destruct (generateStyledImages_resolved _ _ _ _ _ _ _ Hcall) as [Hne Htruthy].
  set (t := App.task_id task) in *.
  set (G := Nat.iter k (App.tick t)
              (App.updateImageStatus t App.startUpdates (App.imageGroups st)))
    in *.
  assert (Hids : map App.id (App.imagesOfTask t G) = map App.id placeholders).
  { unfold G. rewrite iter_tick_ids. apply started_ids. }
  assert (Hlen : List.length (App.imagesOfTask t G) = App.numImages task).
  { rewrite <- HN. fold placeholders.
    rewrite <- (length_map App.id), Hids, length_map. reflexivity. }
  assert (Hkept : kept
                  = map (fun img => App.applyUpdates img App.doneUpdates)
                      (completeAll task (App.imagesOfTask t G) (rev newImages))).
  { unfold kept. fold final. unfold final. rewrite Hg, Hcall. simpl.
    rewrite imagesOfTask_updateImageStatus. f_equal.
    rewrite <- (rev_involutive newImages) at 1.
    apply reconcile_spec; [reflexivity| |apply Forall_rev; exact Htruthy].
    unfold G. apply iter_tick_generating, started_generating. }
  assert (Hrev : List.length (rev newImages) <= List.length (App.imagesOfTask t G)).
  { rewrite length_rev, Hlen. exact HK. }
  assert (Hcount : List.length kept = List.length newImages).
  { rewrite Hkept, length_map, completeAll_length, length_rev;
      [reflexivity|exact Hrev]. }
  assert (Hdone : Forall (fun img => App.status img = App.completed
                                     /\ exists u, App.url img = Some u) kept).
  { rewrite Hkept. apply Forall_map.
    eapply Forall_impl; [|apply completeAll_completed].
    intros img Himg. exact Himg. }
  split; [destruct newImages; [contradiction Hne; reflexivity|simpl; lia]|].
  split; [exact Hcount|].
  split; [exact Hdone|].
  split.
  { rewrite Hkept, map_map. simpl.
    change (map (fun x => App.id x) ?l) with (map App.id l).
    rewrite completeAll_ids, length_rev, Hids; [reflexivity|exact Hrev]. }
  split; [unfold placeholders; rewrite HN, Hcount; reflexivity|].
  split.
  { eapply Forall_impl; [|exact Hdone].
    intros img [Hs _]. rewrite Hs. discriminate. }
  split; [exact Hq|exact Hp].
Qed.

(** Two images requested with a reference image; the backend returns an
    image for the first call only. *)
Lemma C1_witness :
  let st := twoQueued true in
  let task := catTask "task-a" 2 true in
  let b := styleBackend (fun i => i =? 0) in
  let newImages := [Gateway.dataUrl "image/png" "IMG0"] in
  let final := App.run st (passage task 3 b) in
  let placeholders :=
    App.imagesOfTask (App.task_id task) (App.imageGroups st) in
  let kept :=
    App.imagesOfTask (App.task_id task) (App.imageGroups final) in
  0 < List.length newImages
  /\ List.length kept = List.length newImages
  /\ Forall (fun img => App.status img = App.completed
                        /\ exists u, App.url img = Some u) kept
  /\ map App.id kept
     = firstn (List.length newImages) (map App.id placeholders)
  /\ List.length placeholders - List.length kept
     = App.numImages task - List.length newImages
  /\ Forall (fun img => App.status img <> App.generating) kept
  /\ App.taskQueue final = []
  /\ App.isProcessing final = false.
Proof.
  apply (C1_partial_success (twoQueued true) (catTask "task-a" 2 true) []
           (styleBackend (fun i => i =? 0)) 3
           [Gateway.dataUrl "image/png" "IMG0"]).
  - apply twoQueued_reachable.
  - reflexivity.
  - reflexivity.
  - reflexivity.
  - reflexivity.
  - simpl. lia.
Defined.

(** C2. A reachable, idle queue with a head task: the gateway never
    resolves with zero artifacts (it throws instead), and when the call
    fails, after the task has gone through the queue every image that
    carried the task's id is still there, in the same group and position,
    with status failed and the one error message of the failure. *)
Theorem C2_failure_marks_all_failed :
  forall (st : App.State) (task : App.Task) (rest : list App.Task)
         (b : Gateway.Backend) (ticks : nat),
    App.reachable st ->
    App.isProcessing st = false ->
    App.taskQueue st = task :: rest ->
    snd (App.gatewayCall b task) <> inr []
    /\ forall err,
         snd (App.gatewayCall b task) = inl err ->
         let final := App.run st (passage task ticks b) in
         let placeholders :=
           App.imagesOfTask (App.task_id task) (App.imageGroups st) in
         let kept :=
           App.imagesOfTask (App.task_id task) (App.imageGroups final) in
         map App.id kept = map App.id placeholders
         /\ List.length kept = List.length placeholders
         /\ Forall (fun img => App.status img = App.failed
                               /\ App.error img
                                  = Some (App.errorMessageOf err)) kept
         /\ layout (App.imageGroups final) = layout (App.imageGroups st).
Proof.
  intros st task rest b ticks Hreach Hidle Hqueue.
  split; [apply generateStyledImages_never_empty|].
  intros err Hcall final placeholders kept.
  destruct (awaiting_invariant st Hreach) as [_ Hawait].
  destruct (passage_result st task rest ticks b Hidle (Hawait Hidle) Hqueue)
    as [k [Hg _]].
  set (t := App.task_id task) in *.
  assert (Hkept : kept
    = map (fun img => App.applyUpdates img App.doneUpdates)
        (map (fun img => App.applyUpdates img
                           (App.failedUpdates (App.errorMessageOf err)))
           (App.imagesOfTask t
              (Nat.iter k (App.tick t)
                 (App.updateImageStatus t App.startUpdates
                    (App.imageGroups st)))))).
  { unfold kept, final. rewrite Hg, Hcall. simpl.
    rewrite !imagesOfTask_updateImageStatus. reflexivity. }
  assert (Hids : map App.id kept = map App.id placeholders).
  { rewrite Hkept, !map_map. simpl.
    change (map (fun x => App.id x) ?l) with (map App.id l).
    rewrite iter_tick_ids. apply started_ids. }
  split; [exact Hids|].
  split.
  { rewrite <- (length_map App.id kept), Hids, length_map. reflexivity. }
  split.
  { rewrite Hkept, map_map. apply Forall_map. apply Forall_forall.
    intros img _. split; reflexivity. }
  unfold final. rewrite Hg, Hcall. simpl.
  rewrite !layout_updateImageStatus, iter_tick_layout.
  apply layout_updateImageStatus.
Qed.

(** Two images requested without a reference image; the backend returns
    an empty list of images. *)
Lemma C2_witness :
  let st := twoQueued false in
  let task := catTask "task-a" 2 false in
  let b := textBackend [] in
  snd (App.gatewayCall b task) <> inr []
  /\ forall err,
       snd (App.gatewayCall b task) = inl err ->
       let final := App.run st (passage task 3 b) in
       let placeholders :=
         App.imagesOfTask (App.task_id task) (App.imageGroups st) in
       let kept :=
         App.imagesOfTask (App.task_id task) (App.imageGroups final) in
       map App.id kept = map App.id placeholders
       /\ List.length kept = List.length placeholders
       /\ Forall (fun img => App.status img = App.failed
                             /\ App.error img
                                = Some (App.errorMessageOf err)) kept
       /\ layout (App.imageGroups final) = layout (App.imageGroups st).
Proof.
  apply (C2_failure_marks_all_failed (twoQueued false)
           (catTask "task-a" 2 false) [] (textBackend []) 3).
  - apply twoQueued_reachable.
  - reflexivity.
  - reflexivity.
Defined.

(** The claim of C7 fails on two artifacts: the first placeholder receives
    the second artifact of the response. *)
Lemma C7_counterexample :
  let st := twoQueued false in
  let task := catTask "task-a" 2 false in
  let b := textBackend ["AAAA"; "BBBB"] in
  let final := App.run st (passage task 3 b) in
  let kept := App.imagesOfTask "task-a" (App.imageGroups final) in
  exists newImages,
    snd (App.gatewayCall b task) = inr newImages
    /\ map App.id kept = ["task-a-0"; "task-a-1"]
    /\ ~ (forall i, nth_error (map App.url kept) i
                    = option_map Some (nth_error newImages i)).
Proof.
  exists ["data:image/jpeg;base64,AAAA"; "data:image/jpeg;base64,BBBB"].
  split; [reflexivity|]. split; [reflexivity|].
  intros H. specialize (H 0). vm_compute in H. discriminate.
Qed.

(** C7 (amended). Under the conditions of C1, the artifacts are paired with
    the task's placeholders by popping the response from its tail while the
    placeholders are visited from the head: with K artifacts, the placeholder
    at position i < K (in display order) receives artifact K - 1 - i, so the
    urls of the task's images are the response reversed. *)
Theorem C7_artifacts_assigned_from_the_tail :
  forall (st : App.State) (task : App.Task) (rest : list App.Task)
         (b : Gateway.Backend) (ticks : nat) (newImages : list string),
    App.reachable st ->
    App.isProcessing st = false ->
    App.taskQueue st = task :: rest ->
    List.length (App.imagesOfTask (App.task_id task) (App.imageGroups st))
      = App.numImages task ->
    snd (App.gatewayCall b task) = inr newImages ->
    List.length newImages <= App.numImages task ->
    let final := App.run st (passage task ticks b) in
    let placeholders :=
      App.imagesOfTask (App.task_id task) (App.imageGroups st) in
    let kept :=
      App.imagesOfTask (App.task_id task) (App.imageGroups final) in
    map App.url kept = map Some (rev newImages)
    /\ map App.id kept
       = firstn (List.length newImages) (map App.id placeholders)
    /\ forall i, i < List.length newImages ->
         nth_error (map App.url kept) i
         = option_map Some
             (nth_error newImages (List.length newImages - 1 - i)).
Proof.
  intros st task rest b ticks newImages Hreach Hidle Hqueue HN Hcall HK.
  intros final placeholders kept.
  destruct (awaiting_invariant st Hreach) as [_ Hawait].
  destruct (passage_result st task rest ticks b Hidle (Hawait Hidle) Hqueue)
    as [k [Hg _]].
  destruct (generateStyledImages_resolved _ _ _ _ _ _ _ Hcall) as [_ Htruthy].
  set (t := App.task_id task) in *.
  set (G := Nat.iter k (App.tick t)
              (App.updateImageStatus t App.startUpdates (App.imageGroups st)))
    in *.
  assert (Hids : map App.id (App.imagesOfTask t G) = map App.id placeholders).
  { unfold G. rewrite iter_tick_ids. apply started_ids. }
  assert (Hrev : List.length (rev newImages) <= List.length (App.imagesOfTask t G)).
  { rewrite length_rev, <- (length_map App.id), Hids, length_map.
    unfold placeholders. rewrite HN. exact HK. }
  assert (Hkept : kept
                  = map (fun img => App.applyUpdates img App.doneUpdates)
                      (completeAll task (App.imagesOfTask t G) (rev newImages))).
  { unfold kept, final. rewrite Hg, Hcall. simpl.
    rewrite imagesOfTask_updateImageStatus. f_equal.
    rewrite <- (rev_involutive newImages) at 1.
    apply reconcile_spec; [reflexivity| |apply Forall_rev; exact Htruthy].
    unfold G. apply iter_tick_generating, started_generating. }
  assert (Hurls : map App.url kept = map Some (rev newImages)).
  { rewrite Hkept, map_map. simpl.
    change (map (fun x => App.url x) ?l) with (map App.url l).
    apply completeAll_urls. exact Hrev. }
  split; [exact Hurls|].
  split.
  { rewrite Hkept, map_map. simpl.
    change (map (fun x => App.id x) ?l) with (map App.id l).
    rewrite completeAll_ids, length_rev, Hids; [reflexivity|exact Hrev]. }
  intros i Hi. rewrite Hurls, nth_error_map, nth_error_rev.
  destruct (Nat.ltb_spec i (List.length newImages)) as [_|Hge]; [|lia].
  replace (List.length newImages - S i) with (List.length newImages - 1 - i)
    by lia.
  reflexivity.
Qed.

Lemma C7_witness :
  let st := twoQueued false in
  let task := catTask "task-a" 2 false in
  let b := textBackend ["AAAA"; "BBBB"] in
  let newImages :=
    [Gateway.dataUrl "image/jpeg" "AAAA"; Gateway.dataUrl "image/jpeg" "BBBB"] in
  let final := App.run st (passage task 3 b) in
  let placeholders :=
    App.imagesOfTask (App.task_id task) (App.imageGroups st) in
  let kept :=
    App.imagesOfTask (App.task_id task) (App.imageGroups final) in
  map App.url kept = map Some (rev newImages)
  /\ map App.id kept
     = firstn (List.length newImages) (map App.id placeholders)
  /\ forall i, i < List.length newImages ->
       nth_error (map App.url kept) i
       = option_map Some
           (nth_error newImages (List.length newImages - 1 - i)).
Proof.
  apply (C7_artifacts_assigned_from_the_tail (twoQueued false)
           (catTask "task-a" 2 false) [] (textBackend ["AAAA"; "BBBB"]) 3
           [Gateway.dataUrl "image/jpeg" "AAAA";
            Gateway.dataUrl "image/jpeg" "BBBB"]).
  - apply twoQueued_reachable.
  - reflexivity.
  - reflexivity.
  - reflexivity.
  - reflexivity.
  - simpl. lia.
Defined.

(* ================================================================== *)
(** ** The synthetic progress signal *)
(* ================================================================== *)

Section Progress.
Import JS App.
Local Open Scope Q_scope.

Lemma below95_true p : below95 p = true <-> p < 95.
Proof.
  unfold below95. rewrite negb_true_iff. split.
  - intros H. apply Qnot_le_lt. intros Hle.
    apply Qle_bool_iff in Hle. rewrite Hle in H. discriminate.
  - intros H. destruct (Qle_bool 95 p) eqn:E; [|reflexivity].
    apply Qle_bool_iff in E. exfalso. exact (Qlt_not_le _ _ H E).
Qed.

Lemma below95_false p : below95 p = false <-> 95 <= p.
Proof.
  unfold below95. rewrite negb_false_iff. apply Qle_bool_iff.
Qed.

Lemma increment_ge_1 p : 1 <= increment p.
Proof. unfold increment. apply Q.le_max_l. Qed.

Lemma nextProgress_eq p :
  nextProgress p == Qmin (p + Qmax 1 ((95 - p) / 15)) 95.
Proof. unfold nextProgress, increment. apply Qred_correct. Qed.

Lemma nextProgress_le_95 p : nextProgress p <= 95.
Proof. rewrite nextProgress_eq. apply Q.le_min_r. Qed.






End Progress.






(* ================================================================== *)
(** ** The batch runner: translation *)
(* ================================================================== *)

Section Translation.
Import JS Vip.

Lemma nth_error_mapi_from (A B : Type) (f : A -> nat -> B) :
  forall (l : list A) (i0 j : nat),
    nth_error (mapi_from f i0 l) j
    = option_map (fun x => f x (i0 + j)) (nth_error l j).
Proof.
  induction l as [|x rest IH]; intros i0 j.
  - destruct j; reflexivity.
  - destruct j as [|j]; simpl.
    + rewrite Nat.add_0_r. reflexivity.
    + rewrite IH. rewrite Nat.add_succ_r. reflexivity.
Qed.

Lemma withPrompt_same task : withPrompt task (prompt task) = task.
Proof. destruct task; reflexivity. Qed.

Lemma or_else_same p : or_else (Some p) p = p.
Proof. unfold or_else. destruct (truthy p); reflexivity. Qed.

(** Writing every prompt over itself changes nothing. *)
Lemma applyTranslation_same : forall (l : list VipTask) (i0 : nat) orig,
  (forall j task, nth_error l j = Some task ->
                  nth_error orig (i0 + j) = Some (prompt task)) ->
  mapi_from (fun task i =>
               withPrompt task (or_else (nth_error orig i) (nth i orig "")))
            i0 l
  = l.
Proof.
  induction l as [|task rest IH]; intros i0 orig H; simpl; [reflexivity|].
  f_equal.
  - pose proof (H 0 task eq_refl) as H0. rewrite Nat.add_0_r in H0.
    rewrite H0, (nth_error_nth _ _ "" H0), or_else_same.
    apply withPrompt_same.
  - apply IH. intros j task' Hj.
    rewrite Nat.add_succ_l, <- Nat.add_succ_r. apply (H (S j)). exact Hj.
Qed.

Lemma translate_mismatch answer prompts translatedText :
  prompts <> [] ->
  answer (Gateway.translationPrompt prompts) = Resolved translatedText ->
  List.length (split Gateway.separator translatedText)
    <> List.length prompts ->
  Gateway.translatePromptsToEnglish answer prompts = inr prompts.
Proof.
  intros Hne Hanswer Hlen. unfold Gateway.translatePromptsToEnglish.
  destruct prompts as [|p ps]; [contradiction Hne; reflexivity|].
  rewrite Hanswer.
  destruct (Nat.eqb_spec
              (List.length (split Gateway.separator translatedText))
              (List.length (p :: ps))) as [E|_]; [contradiction|reflexivity].
Qed.

Lemma translate_match answer prompts translatedText :
  prompts <> [] ->
  answer (Gateway.translationPrompt prompts) = Resolved translatedText ->
  List.length (split Gateway.separator translatedText)
    = List.length prompts ->
  Gateway.translatePromptsToEnglish answer prompts
  = inr (split Gateway.separator translatedText).
Proof.
  intros Hne Hanswer Hlen. unfold Gateway.translatePromptsToEnglish.
  destruct prompts as [|p ps]; [contradiction Hne; reflexivity|].
  rewrite Hanswer, Hlen, Nat.eqb_refl. reflexivity.
Qed.

End Translation.

(** The claim of C5 fails on a response whose second piece is empty: the
    split response has the cardinality of the input, yet the second prompt
    is not replaced by the second translated prompt. *)
Lemma C5_counterexample :
  let st := Vip.analysed [("BG-01-01", "gato"); ("BG-01-02", "perro")] in
  let answer := fun _ : string => JS.Resolved "cat|||---|||" in
  let translated := JS.split Gateway.separator "cat|||---|||" in
  List.length translated = List.length (Vip.tasks st)
  /\ ~ (forall i,
          nth_error (map Vip.prompt (Vip.tasks (Vip.handleTranslateAll answer st))) i
          = nth_error translated i).
Proof.
  split; [reflexivity|].
  intros H. specialize (H 1). vm_compute in H. discriminate.
Qed.

(** C5 (amended). For a batch that is not generating and has N >= 1
    prompts, when the translation call resolves: if the split response has a
    length other than N every task is left as it was; if it has length N,
    the prompt at each index i becomes the translated prompt i when that is
    a non-empty string, and keeps its original value when the translated
    prompt i is the empty string. *)
Theorem C5_translation_applied_by_cardinality :
  forall (st : Vip.State) (answer : string -> JS.Settled string)
         (translatedText : string),
    Vip.isGenerating st = false ->
    Vip.tasks st <> [] ->
    answer (Gateway.translationPrompt (map Vip.prompt (Vip.tasks st)))
      = JS.Resolved translatedText ->
    let translated := JS.split Gateway.separator translatedText in
    let after := Vip.tasks (Vip.handleTranslateAll answer st) in
    (List.length translated <> List.length (Vip.tasks st) ->
       after = Vip.tasks st)
    /\ (List.length translated = List.length (Vip.tasks st) ->
        forall i task,
          nth_error (Vip.tasks st) i = Some task ->
          exists tr,
            nth_error translated i = Some tr
            /\ nth_error after i
               = Some (Vip.withPrompt task
                         (if JS.truthy tr then tr else Vip.prompt task))).
Proof.
  intros st answer translatedText Hgen Hne Hanswer translated after.
  assert (Hne' : map Vip.prompt (Vip.tasks st) <> []).
  { destruct (Vip.tasks st); [contradiction Hne; reflexivity|discriminate]. }
  assert (Hguard : (List.length (Vip.tasks st) =? 0) || Vip.isGenerating st
                   = false).
  { rewrite Hgen. destruct (Vip.tasks st);
      [contradiction Hne; reflexivity|reflexivity]. }
  split.
  - intros Hlen. unfold after, Vip.handleTranslateAll. rewrite Hguard.
    rewrite (translate_mismatch answer _ translatedText Hne' Hanswer)
      by (rewrite length_map; exact Hlen).
    simpl. unfold Vip.applyTranslation, JS.mapi.
    apply applyTranslation_same. intros j task Hj. simpl.
    rewrite nth_error_map, Hj. reflexivity.
  - intros Hlen i task Hi. unfold after, Vip.handleTranslateAll.
    rewrite Hguard.
    rewrite (translate_match answer _ translatedText Hne' Hanswer)
      by (rewrite length_map; exact Hlen).
    simpl. unfold Vip.applyTranslation, JS.mapi.
    rewrite nth_error_mapi_from, Hi. simpl.
    destruct (nth_error translated i) as [tr|] eqn:Htr.
    + exists tr. split; [reflexivity|].
      fold translated. rewrite Htr. unfold JS.or_else.
      assert (Ho : nth_error (map Vip.prompt (Vip.tasks st)) i
                   = Some (Vip.prompt task))
        by (rewrite nth_error_map, Hi; reflexivity).
      rewrite (nth_error_nth _ _ "" Ho). reflexivity.
    + exfalso. apply nth_error_None in Htr.
      assert (i < List.length (Vip.tasks st))
        by (apply nth_error_Some; rewrite Hi; discriminate).
      lia.
Qed.

Lemma C5_witness :
  let st := Vip.analysed [("BG-01-01", "gato"); ("BG-01-02", "perro")] in
  let answer := fun _ : string => JS.Resolved "cat|||---|||" in
  let translated := JS.split Gateway.separator "cat|||---|||" in
  let after := Vip.tasks (Vip.handleTranslateAll answer st) in
  (List.length translated <> List.length (Vip.tasks st) ->
     after = Vip.tasks st)
  /\ (List.length translated = List.length (Vip.tasks st) ->
      forall i task,
        nth_error (Vip.tasks st) i = Some task ->
        exists tr,
          nth_error translated i = Some tr
          /\ nth_error after i
             = Some (Vip.withPrompt task
                       (if JS.truthy tr then tr else Vip.prompt task))).
Proof.
  apply (C5_translation_applied_by_cardinality
           (Vip.analysed [("BG-01-01", "gato"); ("BG-01-02", "perro")])
           (fun _ : string => JS.Resolved "cat|||---|||") "cat|||---|||").
  - reflexivity.
  - discriminate.
  - reflexivity.
Defined.

(* ================================================================== *)
(** ** The batch runner: pause, resume and single regeneration *)
(* ================================================================== *)

Section BatchRunner.
Import JS Vip.

(** A loop whose closure holds [isPaused = false] never takes the pause
    branch: it leaves the cursor alone until it resets it to 0 at its
    end, and what it suspends carries the same closure. *)
Lemma forLoop_unpaused cl : cl_isPaused cl = false ->
  forall remaining i st,
    generationIndex st = 0 ->
    generationIndex (fst (forLoop cl remaining i st)) = 0
    /\ loops (fst (forLoop cl remaining i st)) = loops st
    /\ (forall s, snd (forLoop cl remaining i st) = Some s -> closure s = cl).
Proof.
  intros Hcl. induction remaining as [|task rest IH]; intros i st Hidx; simpl.
  - split; [reflexivity|]. split; [reflexivity|discriminate].
  - rewrite Hcl. destruct (Status_eqb (status task) completed).
    + apply IH. exact Hidx.
    + simpl. split; [exact Hidx|]. split; [reflexivity|].
      intros s Hs. inversion Hs. reflexivity.
Qed.

Lemma suspend_unpaused cl remaining i st :
  cl_isPaused cl = false ->
  generationIndex st = 0 ->
  Forall unpaused (loops st) ->
  generationIndex (suspend (forLoop cl remaining i st)) = 0
  /\ Forall unpaused (loops (suspend (forLoop cl remaining i st))).
Proof.
  intros Hcl Hidx Hloops.
  destruct (forLoop_unpaused cl Hcl remaining i st Hidx) as [H1 [H2 H3]].
  destruct (forLoop cl remaining i st) as [st' [s|]]; simpl in *.
  - split; [exact H1|]. rewrite H2. apply Forall_app. split; [exact Hloops|].
    constructor; [|constructor]. unfold unpaused. rewrite (H3 s eq_refl).
    exact Hcl.
  - split; [exact H1|]. rewrite H2. exact Hloops.
Qed.

Lemma take_Forall (A : Type) (P : A -> Prop) : forall k (l : list A) x others,
  Forall P l -> take k l = Some (x, others) -> P x /\ Forall P others.
Proof.
  induction k as [|k IH]; intros [|y rest] x others Hl Ht; simpl in Ht;
    try discriminate.
  - inversion Ht; subst. inversion Hl; subst. split; assumption.
  - destruct (take k rest) as [[z rest']|] eqn:E; [|discriminate].
    inversion Ht; subst. inversion Hl; subst.
    destruct (IH rest x rest' H2 E) as [Hx Hrest].
    split; [exact Hx|]. constructor; assumption.
Qed.

(** Whatever happens to the component, the cursor is never saved and no
    running loop ever holds [isPaused = true]. *)
Lemma cursor_never_saved st e :
  generationIndex st = 0 /\ Forall unpaused (loops st) ->
  generationIndex (step st e) = 0 /\ Forall unpaused (loops (step st e)).
Proof.
  intros [Hidx Hloops]. destruct e; simpl.
  - split; [reflexivity|exact Hloops].
  - split; assumption.
  - split; assumption.
  - unfold batchEffect.
    destruct (isGenerating st && negb (isPaused st)); [|split; assumption].
    unfold processGenerationQueue. simpl.
    destruct (isPaused st) eqn:Hp; [split; assumption|].
    apply suspend_unpaused; [reflexivity|exact Hidx|exact Hloops].
  - destruct (take k (loops st)) as [[s others]|] eqn:Ht; [|split; assumption].
    destruct (take_Forall _ unpaused k (loops st) s others Hloops Ht)
      as [Hs Hothers].
    unfold loopResume.
    apply suspend_unpaused; [exact Hs| |];
      destruct outcome; simpl; assumption.
  - unfold handleGenerateSingleTask.
    destruct (find _ (tasks st)); [|split; assumption].
    destruct (isGenerating st); split; assumption.
  - destruct (take k (singles st)) as [[taskId others]|]; [|split; assumption].
    unfold singleResume. destruct outcome; split; assumption.
  - split; assumption.
  - unfold handleTranslateAll.
    destruct (_ || _); [split; assumption|].
    destruct (Gateway.translatePromptsToEnglish _ _); split; assumption.
Qed.

Lemma cursor_never_saved_run events : forall st,
  generationIndex st = 0 /\ Forall unpaused (loops st) ->
  generationIndex (run st events) = 0
  /\ Forall unpaused (loops (run st events)).
Proof.
  induction events as [|e rest IH]; intros st H; [exact H|].
  apply (IH (step st e)). apply cursor_never_saved. exact H.
Qed.

End BatchRunner.

(** C4 (what the code does). The loop of [processGenerationQueue] reads
    [isPaused] from its closure, and an invocation that reaches the loop
    holds [isPaused = false]: for every sequence of events the cursor
    stays 0 and no running loop is paused.  On three pending items, with
    pause pressed while item 0 is in flight: when item 0 resolves the loop
    marks item 1 generating and saves no cursor; it then runs to the end of
    the list and resets the cursor to 0. *)
Theorem C4_pause_never_reaches_the_running_loop :
  (forall prompts events,
      Vip.generationIndex (Vip.run (Vip.analysed prompts) events) = 0
      /\ Forall unpaused (Vip.loops (Vip.run (Vip.analysed prompts) events)))
  /\ (let paused :=
        Vip.run threeScenes [Vip.GenerateAll; Vip.BatchEffect; Vip.Pause] in
      let resolved := Vip.step paused (Vip.LoopSettles 0 (artifact "0")) in
      let finished :=
        Vip.run resolved [Vip.LoopSettles 0 (artifact "1");
                          Vip.LoopSettles 0 (artifact "2")] in
      Vip.isPaused paused = true
      /\ map Vip.status (Vip.tasks paused)
         = [Vip.generating; Vip.pending; Vip.pending]
      /\ map Vip.status (Vip.tasks resolved)
         = [Vip.completed; Vip.generating; Vip.pending]
      /\ Vip.generationIndex resolved = 0
      /\ Vip.outstanding resolved = 1
      /\ map Vip.status (Vip.tasks finished)
         = [Vip.completed; Vip.completed; Vip.completed]
      /\ Vip.generationIndex finished = 0
      /\ Vip.isGenerating finished = false
      /\ Vip.isPaused finished = true).
Proof.
  split.
  - intros prompts events. apply cursor_never_saved_run.
    split; [reflexivity|constructor].
  - vm_compute. repeat split; reflexivity.
Qed.

(** The claim of C6 fails in the batch runner: two single regenerations
    started one after the other are outstanding together, and two items are
    generating. *)
Lemma C6_counterexample :
  ~ (forall events,
       List.length (Vip.generatingTasks (Vip.run threeScenes events)) <= 1
       /\ Vip.outstanding (Vip.run threeScenes events) <= 1).
Proof.
  intros H.
  specialize (H [Vip.GenerateSingle 0; Vip.GenerateSingle 1]).
  vm_compute in H. destruct H as [H _]. lia.
Qed.

(** C6 (amended). The task queue is single-flight: in every reachable
    state at most one gateway call is outstanding, the flag is up whenever
    one is, and the effect then dispatches nothing.  In the batch runner a
    single regeneration is refused while the running flag is up (it does
    not raise the flag itself). *)
Theorem C6_queue_single_flight_and_single_guard :
  forall (st : App.State) (vst : Vip.State) (taskId : nat),
    App.reachable st ->
    Vip.isGenerating vst = true ->
    List.length (App.awaiting st) <= 1
    /\ (App.awaiting st <> [] ->
        App.isProcessing st = true /\ App.processQueue st = st)
    /\ Vip.handleGenerateSingleTask taskId vst = vst.
Proof.
  intros st vst taskId Hreach Hgen.
  destruct (awaiting_invariant st Hreach) as [Hlen Hidle].
  split; [exact Hlen|]. split.
  - intros Hne.
    assert (Hp : App.isProcessing st = true).
    { destruct (App.isProcessing st); [reflexivity|].
      contradiction Hne. apply Hidle. reflexivity. }
    split; [exact Hp|]. unfold App.processQueue. rewrite Hp. reflexivity.
  - unfold Vip.handleGenerateSingleTask. rewrite Hgen.
    destruct (find _ (Vip.tasks vst)); reflexivity.
Qed.

Lemma C6_witness :
  let st := twoDispatched in
  let vst :=
    Vip.run threeScenes [Vip.GenerateAll; Vip.BatchEffect] in
  List.length (App.awaiting st) <= 1
  /\ (App.awaiting st <> [] ->
      App.isProcessing st = true /\ App.processQueue st = st)
  /\ Vip.handleGenerateSingleTask 2 vst = vst.
Proof.
  apply (C6_queue_single_flight_and_single_guard twoDispatched
           (Vip.run threeScenes [Vip.GenerateAll; Vip.BatchEffect]) 2).
  - apply App.reach_step, twoQueued_reachable.
  - reflexivity.
Defined.

(* ================================================================== *)
(** ** Empty groups *)
(* ================================================================== *)

(** C8 (what the code does). The success branch of [processQueue] filters
    the generating images out of every group and keeps the groups it
    empties: after the second session the gallery holds the group of day 1
    with no image. *)
Theorem C8_success_branch_keeps_an_empty_group :
  layout (App.imageGroups secondSession)
    = [("day 2", ["task-b-0"]); ("day 1", [])]
  /\ exists group,
       In group (App.imageGroups secondSession) /\ App.images group = [].
Proof.
  split; [vm_compute; reflexivity|].
  exists {| App.date := "day 1"; App.images := [] |}.
  split; [vm_compute; right; left; reflexivity|reflexivity].
Qed.

(* ================================================================== *)
(** ** Strings: splitting what was joined *)
(* ================================================================== *)

Section SplitJoin.
Import JS.

Lemma append_nil_r (s : string) : (s ++ "")%string = s.
Proof. induction s as [|c s IH]; simpl; [reflexivity|rewrite IH; reflexivity]. Qed.

Lemma append_assoc (a b c : string) :
  ((a ++ b) ++ c)%string = (a ++ (b ++ c))%string.
Proof. induction a as [|x a IH]; simpl; [reflexivity|rewrite IH; reflexivity]. Qed.

Lemma prefix_append (a r : string) : String.prefix a (a ++ r) = true.
Proof.
  induction a as [|x a IH]; simpl; [destruct r; reflexivity|].
  destruct (ascii_dec x x) as [_|Hne]; [exact IH|contradiction Hne; reflexivity].
Qed.

(** A piece without the first character of the separator is read through. *)
Lemma split_from_piece (c0 : ascii) (sep' : string) :
  forall (p r cur : string),
    hasChar c0 p = false ->
    split_from (String c0 sep') (p ++ r) 0 cur
    = split_from (String c0 sep') r 0 (cur ++ p).
Proof.
  induction p as [|c p IH]; intros r cur Hp; simpl.
  - rewrite append_nil_r. reflexivity.
  - simpl in Hp. apply orb_false_iff in Hp. destruct Hp as [Hc Hp].
    destruct (ascii_dec c0 c) as [->|Hne].
    + rewrite Ascii.eqb_refl in Hc. discriminate.
    + rewrite (IH r _ Hp), append_assoc. reflexivity.
Qed.

(** A pending skip drops as many characters as it counts. *)
Lemma split_from_skip (sep : string) : forall (q r cur : string),
  split_from sep (q ++ r) (String.length q) cur = split_from sep r 0 cur.
Proof.
  induction q as [|c q IH]; intros r cur; simpl; [reflexivity|apply IH].
Qed.

(** A separator at the head closes the piece. *)
Lemma split_from_separator (c0 : ascii) (sep' : string) (r cur : string) :
  split_from (String c0 sep') (String c0 sep' ++ r) 0 cur
  = cur :: split_from (String c0 sep') r 0 "".
Proof.
  change (String c0 sep' ++ r)%string with (String c0 (sep' ++ r)).
  cbn [split_from].
  change (String c0 (sep' ++ r)) with (String c0 sep' ++ r)%string.
  rewrite prefix_append. f_equal.
  cbn [String.length]. rewrite Nat.sub_succ, Nat.sub_0_r.
  apply split_from_skip.
Qed.

(** [split] undoes [join] on a non-empty list of pieces that do not hold
    the first character of the separator. *)
Lemma split_from_join (c0 : ascii) (sep' : string) :
  forall (xs : list string) (x cur : string),
    Forall (fun p => hasChar c0 p = false) (x :: xs) ->
    split_from (String c0 sep') (join (String c0 sep') (x :: xs)) 0 cur
    = (cur ++ x)%string :: xs.
Proof.
  induction xs as [|y ys IH]; intros x cur H.
  - simpl. rewrite <- (append_nil_r x) at 1.
    rewrite split_from_piece by (exact (Forall_inv H)). reflexivity.
  - change (join (String c0 sep') (x :: y :: ys))
      with (x ++ (String c0 sep' ++ join (String c0 sep') (y :: ys)))%string.
    rewrite split_from_piece by (exact (Forall_inv H)).
    rewrite split_from_separator. f_equal.
    apply (IH y ""). exact (Forall_inv_tail H).
Qed.

Lemma split_join (c0 : ascii) (sep' : string) (x : string) (xs : list string) :
  Forall (fun p => hasChar c0 p = false) (x :: xs) ->
  split (String c0 sep') (join (String c0 sep') (x :: xs)) = x :: xs.
Proof. intros H. unfold split. apply (split_from_join c0 sep' xs x "" H). Qed.

End SplitJoin.

(* ================================================================== *)
(** ** More about the gateway *)
(* ================================================================== *)

Section MoreGateway.
Import JS Gateway.



(** While no call fails, path 1 sends one request per image and collects
    the images in call order. *)
Lemma styleLoop_no_failure b req : forall remaining i acc,
  (forall j, j < remaining -> callFails b req (i + j) = None) ->
  styleLoop b req remaining i acc
  = (repeat (ContentRequest req) remaining,
     inr (acc ++ flat_map (callImage b req) (seq i remaining))%list).
Proof.
  induction remaining as [|r IH]; intros i acc H.
  - simpl. rewrite app_nil_r. reflexivity.
  - pose proof (H 0 (Nat.lt_0_succ r)) as H0. rewrite Nat.add_0_r in H0.
    cbn [styleLoop seq flat_map repeat].
    unfold callFails in H0. unfold callImage at 1.
    destruct (generateContent b i req) as [response|e]; [|discriminate].
    destruct (truthy_opt (blockReason response)); [discriminate|].
    rewrite IH.
    + destruct (imagePart response); [rewrite <- app_assoc|]; reflexivity.
    + intros j Hj. rewrite Nat.add_succ_l, <- Nat.add_succ_r.
      apply H. lia.
Qed.

(** The first failing call ends path 1 with its error. *)
Lemma styleLoop_first_failure b req e : forall k remaining i acc,
  k < remaining ->
  (forall j, j < k -> callFails b req (i + j) = None) ->
  callFails b req (i + k) = Some e ->
  styleLoop b req remaining i acc
  = (repeat (ContentRequest req) (S k), inl e).
Proof.
  induction k as [|k IH]; intros remaining i acc Hk Hbefore Hfail;
    (destruct remaining as [|r]; [lia|]); cbn [styleLoop].
  - rewrite Nat.add_0_r in Hfail. unfold callFails in Hfail.
    destruct (generateContent b i req) as [response|e'].
    + destruct (truthy_opt (blockReason response)); [|discriminate].
      inversion Hfail. reflexivity.
    + inversion Hfail. reflexivity.
  - pose proof (Hbefore 0 (Nat.lt_0_succ k)) as H0.
    rewrite Nat.add_0_r in H0. unfold callFails in H0.
    destruct (generateContent b i req) as [response|e']; [|discriminate].
    destruct (truthy_opt (blockReason response)); [discriminate|].
    rewrite (IH r (S i)).
    + reflexivity.
    + lia.
    + intros j Hj. rewrite Nat.add_succ_l, <- Nat.add_succ_r.
      apply Hbefore. lia.
    + rewrite Nat.add_succ_l, <- Nat.add_succ_r. exact Hfail.
Qed.

End MoreGateway.

(** X1. With reference images and no failing call, [generateStyledImages]
    sends exactly one request per requested image, all alike, and resolves
    with the images the calls returned, in call order; when no call
    returned an image it throws the no-image error instead. *)
Theorem X1_style_path_collects_in_call_order :
  forall (b : Gateway.Backend) (style userPrompt : string) (n : nat)
         (ar : string) (p : Gateway.InlineData) (ps : list Gateway.InlineData),
    let req := Gateway.contentRequest style userPrompt (p :: ps) in
    (forall j, j < n -> Gateway.callFails b req j = None) ->
    Gateway.generateStyledImages b style userPrompt n ar (Some (p :: ps))
    = (repeat (Gateway.ContentRequest req) n,
       match flat_map (Gateway.callImage b req) (seq 0 n) with
       | [] => inl (JS.newError Gateway.noImagesMessage)
       | imgs => inr imgs
       end).
Proof.
  intros b style userPrompt n ar p ps req H.
  unfold Gateway.generateStyledImages. fold req.
  rewrite (styleLoop_no_failure b req n 0 []) by exact H.
  simpl. destruct (flat_map _ _); reflexivity.
Qed.

(** X2. With reference images, the first call that is rejected or answers
    with a block reason ends [generateStyledImages]: no further request is
    sent and the promise is rejected with that error, whatever images the
    earlier calls returned. *)
Theorem X2_style_path_fails_fast :
  forall (b : Gateway.Backend) (style userPrompt : string) (n k : nat)
         (ar : string) (p : Gateway.InlineData) (ps : list Gateway.InlineData)
         (e : JS.Thrown),
    let req := Gateway.contentRequest style userPrompt (p :: ps) in
    k < n ->
    (forall j, j < k -> Gateway.callFails b req j = None) ->
    Gateway.callFails b req k = Some e ->
    Gateway.generateStyledImages b style userPrompt n ar (Some (p :: ps))
    = (repeat (Gateway.ContentRequest req) (S k), inl e).
Proof.
  intros b style userPrompt n k ar p ps e req Hk Hbefore Hfail.
  unfold Gateway.generateStyledImages. fold req.
  rewrite (styleLoop_first_failure b req e k n 0 []); auto.
Qed.


(** X4. The translation protocol decodes what it encodes: when the model
    answers with N texts joined by the separator, none of them holding a
    vertical bar, [translatePromptsToEnglish] resolves with these N texts in
    order. *)
Theorem X4_translation_decodes_joined_answer :
  forall (answer : string -> JS.Settled string) (prompts : list string)
         (x : string) (xs : list string),
    List.length (x :: xs) = List.length prompts ->
    Forall (fun piece => JS.hasChar "|"%char piece = false) (x :: xs) ->
    answer (Gateway.translationPrompt prompts)
      = JS.Resolved (JS.join Gateway.separator (x :: xs)) ->
    Gateway.translatePromptsToEnglish answer prompts = inr (x :: xs).
Proof.
  intros answer prompts x xs Hlen Hbar Hanswer.
  unfold Gateway.translatePromptsToEnglish.
  destruct prompts as [|p ps]; [discriminate|].
  rewrite Hanswer.
  unfold Gateway.separator.
  rewrite (split_join "|"%char "||---|||" x xs Hbar).
  rewrite Hlen, Nat.eqb_refl. reflexivity.
Qed.

Lemma X4_witness :
  Gateway.translatePromptsToEnglish
    (fun _ => JS.Resolved "a forest|||---|||a castle")
    ["yi pian senlin"; "yi zuo chengbao"]
  = inr ["a forest"; "a castle"].
Proof.
  apply (X4_translation_decodes_joined_answer
           (fun _ => JS.Resolved "a forest|||---|||a castle")
           ["yi pian senlin"; "yi zuo chengbao"] "a forest" ["a castle"]).
  - reflexivity.
  - repeat constructor.
  - reflexivity.
Defined.



(** X6. A string without a comma is not a data URL: [partOfDataUrl] throws
    'Invalid data URL' before it looks for a MIME type. *)
Theorem X6_data_url_needs_a_comma :
  forall (url' : string),
    JS.hasChar ","%char url' = false ->
    Gateway.partOfDataUrl url' = inl (JS.newError "Invalid data URL").
Proof.
  intros url' H. unfold Gateway.partOfDataUrl.
  change (JS.split "," url') with (JS.split "," (JS.join "," [url'])).
  rewrite (split_join ","%char "" url' []); [reflexivity|].
  constructor; [exact H|constructor].
Qed.

Lemma X6_witness :
  Gateway.partOfDataUrl "blob:http://localhost/1f0c"
  = inl (JS.newError "Invalid data URL").
Proof.
  apply (X6_data_url_needs_a_comma "blob:http://localhost/1f0c"). reflexivity.
Defined.

(** Three images requested, the second call returns no image. *)
Lemma X1_witness :
  let b := styleBackend (fun i => negb (i =? 1)) in
  let req := Gateway.contentRequest "oil painting" "a cat" [referencePart] in
  Gateway.generateStyledImages b "oil painting" "a cat" 3 "16:9"
    (Some [referencePart])
  = (repeat (Gateway.ContentRequest req) 3,
     match flat_map (Gateway.callImage b req) (seq 0 3) with
     | [] => inl (JS.newError Gateway.noImagesMessage)
     | imgs => inr imgs
     end).
Proof.
  apply (X1_style_path_collects_in_call_order
           (styleBackend (fun i => negb (i =? 1))) "oil painting" "a cat" 3
           "16:9" referencePart []).
  intros j _. reflexivity.
Defined.

(** Three images requested, the second call is blocked. *)
Lemma X2_witness :
  let req := Gateway.contentRequest "oil painting" "a cat" [referencePart] in
  Gateway.generateStyledImages (blockingBackend 1) "oil painting" "a cat" 3
    "16:9" (Some [referencePart])
  = (repeat (Gateway.ContentRequest req) 2,
     inl (JS.newError (Gateway.blockedMessage "SAFETY"))).
Proof.
  apply (X2_style_path_fails_fast (blockingBackend 1) "oil painting" "a cat"
           3 1 "16:9" referencePart []
           (JS.newError (Gateway.blockedMessage "SAFETY"))).
  - lia.
  - intros j Hj. assert (j = 0) by lia. subst j. reflexivity.
  - reflexivity.
Defined.

(* ================================================================== *)
(** ** The task queue: submission, isolation, order *)
(* ================================================================== *)

Section MoreQueue.
Import JS App.

Lemma hasTaskId_unique t t' img :
  hasTaskId t img = true -> hasTaskId t' img = true -> t = t'.
Proof.
  unfold hasTaskId. destruct (taskId img) as [x|]; [|discriminate].
  intros H1 H2. apply String.eqb_eq in H1. apply String.eqb_eq in H2.
  congruence.
Qed.




(** Where [unshiftIntoDate] puts the items: between two parts of the
    images that were there, which keep their order. *)
Lemma update_at_found d items : forall prev k,
  findIndex (fun h => String.eqb (date h) d) prev = Some k ->
  (exists l1 l2,
      allImages prev = (l1 ++ l2)%list
      /\ allImages (update_at k (fun g => withImages g (items ++ images g)%list)
                      prev)
         = (l1 ++ items ++ l2)%list)
  /\ (exists g,
         find (fun h => String.eqb (date h) d)
              (update_at k (fun g => withImages g (items ++ images g)%list) prev)
         = Some (withImages g (items ++ images g)%list)).
Proof.
  unfold allImages.
  induction prev as [|g rest IH]; intros k Hk; simpl in Hk; [discriminate|].
  destruct (String.eqb (date g) d) eqn:Hd.
  - inversion Hk; subst k. simpl. split.
    + exists [], (images g ++ flat_map images rest)%list. split; [reflexivity|].
      simpl. rewrite <- app_assoc. reflexivity.
    + exists g. rewrite Hd. reflexivity.
  - destruct (findIndex _ rest) as [k'|] eqn:Hrest; [|discriminate].
    inversion Hk; subst k. simpl.
    destruct (IH k' eq_refl) as [[l1 [l2 [H1 H2]]] [g' Hg']]. split.
    + exists (images g ++ l1)%list, l2. rewrite H1, H2, <- !app_assoc.
      split; reflexivity.
    + exists g'. rewrite Hd. exact Hg'.
Qed.

Lemma unshiftIntoDate_spec d items prev :
  (exists l1 l2,
      allImages prev = (l1 ++ l2)%list
      /\ allImages (unshiftIntoDate d items prev) = (l1 ++ items ++ l2)%list)
  /\ (exists g,
         find (fun h => String.eqb (date h) d) (unshiftIntoDate d items prev)
         = Some g
         /\ firstn (List.length items) (images g) = items).
Proof.
  unfold unshiftIntoDate.
  destruct (findIndex _ prev) as [k|] eqn:Hk.
  - destruct (update_at_found d items prev k Hk) as [Himgs [g Hg]].
    split; [exact Himgs|].
    exists (withImages g (items ++ images g)%list). split; [exact Hg|].
    simpl. rewrite firstn_app, Nat.sub_diag, firstn_all. simpl.
    apply app_nil_r.
  - split.
    + exists [], (allImages prev). split; [reflexivity|].
      unfold allImages. simpl. reflexivity.
    + exists {| date := d; images := items |}. simpl.
      rewrite String.eqb_refl. split; [reflexivity|apply firstn_all].
Qed.

(** An update of the images of one task leaves the others as they are. *)
Lemma othersThan_map t (f : ImageItem -> ImageItem) groups :
  (forall img, hasTaskId t img = false -> f img = img) ->
  (forall img, hasTaskId t (f img) = hasTaskId t img) ->
  othersThan t (map (fun group => withImages group (map f (images group)))
                    groups)
  = othersThan t groups.
Proof.
  intros Hother Hsame. unfold othersThan.
  rewrite allImages_map_images.
  induction (allImages groups) as [|img rest IH]; simpl; [reflexivity|].
  rewrite Hsame. destruct (hasTaskId t img) eqn:E; simpl; [exact IH|].
  rewrite (Hother img E), IH. reflexivity.
Qed.

Lemma othersThan_updateImageStatus t u groups :
  othersThan t (updateImageStatus t u groups) = othersThan t groups.
Proof.
  apply othersThan_map.
  - intros img H. rewrite H. reflexivity.
  - intros img. destruct (hasTaskId t img) eqn:E; [|exact E].
    rewrite hasTaskId_applyUpdates. exact E.
Qed.

Lemma othersThan_tick t groups : othersThan t (tick t groups) = othersThan t groups.
Proof.
  apply othersThan_map.
  - intros img H. unfold tickImage. rewrite H. reflexivity.
  - intros img. apply hasTaskId_tickImage.
Qed.

Lemma othersThan_iter_tick t k groups :
  othersThan t (Nat.iter k (tick t) groups) = othersThan t groups.
Proof.
  induction k as [|k IH]; [reflexivity|].
  simpl. rewrite othersThan_tick. exact IH.
Qed.

Lemma assignImages_others task : forall imgs newImages,
  filter (fun img => negb (hasTaskId (task_id task) img))
         (filter notGenerating (fst (assignImages task imgs newImages)))
  = filter notGenerating
      (filter (fun img => negb (hasTaskId (task_id task) img)) imgs).
Proof.
  induction imgs as [|img rest IH]; intros newImages; [reflexivity|].
  simpl. unfold assignImage.
  destruct (hasTaskId (task_id task) img) eqn:E.
  - destruct (pop newImages) as [[d|] n1].
    + destruct (truthy d);
        specialize (IH n1);
        destruct (assignImages task rest n1) as [rest' n2]; simpl in *.
      * rewrite hasTaskId_completeImage, E. simpl. exact IH.
      * destruct (notGenerating img); simpl; [rewrite E; simpl|]; exact IH.
    + specialize (IH n1).
      destruct (assignImages task rest n1) as [rest' n2]; simpl in *.
      destruct (notGenerating img); simpl; [rewrite E; simpl|]; exact IH.
  - specialize (IH newImages).
    destruct (assignImages task rest newImages) as [rest' n2]; simpl in *.
    destruct (notGenerating img); simpl; [rewrite E; simpl|];
      rewrite IH; reflexivity.
Qed.

Lemma reconcile_others task : forall groups newImages,
  othersThan (task_id task) (fst (reconcile task groups newImages))
  = filter notGenerating (othersThan (task_id task) groups).
Proof.
  unfold othersThan, allImages.
  induction groups as [|g rest IH]; intros newImages; [reflexivity|].
  simpl.
  pose proof (assignImages_others task (images g) newImages) as Hg.
  destruct (assignImages task (images g) newImages) as [mapped n1].
  specialize (IH n1).
  destruct (reconcile task rest n1) as [rest' n2]. simpl in *.
  rewrite !filter_app, Hg, IH. reflexivity.
Qed.

(** The images of another task among the images that are not of this
    one. *)
Lemma imagesOfTask_othersThan t t' groups :
  t <> t' ->
  imagesOfTask t groups = filter (hasTaskId t) (othersThan t' groups).
Proof.
  intros Hne. unfold imagesOfTask, othersThan.
  induction (allImages groups) as [|img rest IH]; simpl; [reflexivity|].
  destruct (hasTaskId t img) eqn:E.
  - destruct (hasTaskId t' img) eqn:E'.
    + contradiction Hne. exact (hasTaskId_unique t t' img E E').
    + simpl. rewrite E, IH. reflexivity.
  - destruct (hasTaskId t' img); simpl; [|rewrite E]; exact IH.
Qed.

(** The dispatched task is the head of the queue. *)
Lemma awaiting_is_head st :
  reachable st ->
  forall task, awaiting st = [task] -> exists rest, taskQueue st = task :: rest.
Proof.
  induction 1 as [g tr | st e Hreach IH]; [discriminate|].
  destruct (awaiting_invariant st Hreach) as [Hlen Hidle].
  destruct e; simpl.
  - intros task Ha. destruct (IH task Ha) as [rest Hq].
    rewrite Hq. eexists. simpl. reflexivity.
  - unfold processQueue.
    destruct (isProcessing st) eqn:Hp; simpl; [exact IH|].
    destruct (taskQueue st) as [|head rest] eqn:Hq; simpl.
    + intros task Ha. rewrite (Hidle eq_refl) in Ha. discriminate.
    + rewrite (Hidle eq_refl). try rewrite Hq. simpl.
      intros task Ha. inversion Ha; subst. exists rest. reflexivity.
  - destruct (mapGet taskId' (progressIntervals st)); exact IH.
  - destruct (awaiting st) as [|task others] eqn:Ha;
      [rewrite Ha; discriminate|].
    assert (others = [])
      by (destruct others; [reflexivity|simpl in Hlen; lia]).
    subst others. unfold processQueueResume.
    destruct (snd (gatewayCall b task)); simpl; discriminate.
  - destruct (pendingClears st); exact IH.
  - unfold handleDeleteImage.
    destruct (imageAt (imageGroups st) groupIdx imageIdx); exact IH.
  - unfold handleRestoreImage.
    destruct (imageAt (trash st) trashGroupIdx imageIdx); exact IH.
  - exact IH.
Qed.

Lemma resume_intervals task outcome s0 :
  progressIntervals (processQueueResume task outcome s0)
  = match mapGet (task_id task) (progressIntervals s0) with
    | Some intervalId =>
        if intervalId =? 0 then progressIntervals s0
        else mapDelete (task_id task) (progressIntervals s0)
    | None => progressIntervals s0
    end.
Proof. destruct outcome; reflexivity. Qed.

Lemma resume_awaiting task outcome s0 :
  awaiting (processQueueResume task outcome s0) = awaiting s0.
Proof. destruct outcome; reflexivity. Qed.

Lemma resume_nextIntervalId task outcome s0 :
  nextIntervalId (processQueueResume task outcome s0) = nextIntervalId s0.
Proof. destruct outcome; reflexivity. Qed.

(** An interval is registered exactly for the dispatched task. *)
Lemma intervals_invariant st :
  reachable st ->
  map fst (progressIntervals st) = map task_id (awaiting st)
  /\ Forall (fun kv => snd kv <> 0) (progressIntervals st)
  /\ nextIntervalId st <> 0.
Proof.
  induction 1 as [g tr | st e Hreach [IHk [IHv IHn]]].
  - simpl. split; [reflexivity|]. split; [constructor|discriminate].
  - destruct (awaiting_invariant st Hreach) as [Hlen Hidle].
    destruct e; simpl.
    + split; [exact IHk|split; assumption].
    + unfold processQueue.
      destruct (isProcessing st) eqn:Hp; simpl; [split; [exact IHk|split; assumption]|].
      destruct (taskQueue st) as [|head rest] eqn:Hq; simpl;
        [split; [exact IHk|split; assumption]|].
      rewrite (Hidle eq_refl) in *. simpl in IHk.
      destruct (progressIntervals st) as [|kv m]; [|discriminate].
      simpl. split; [reflexivity|]. split; [|discriminate].
      constructor; [exact IHn|constructor].
    + destruct (mapGet taskId' (progressIntervals st));
        (split; [exact IHk|split; assumption]).
    + destruct (awaiting st) as [|task others] eqn:Ha;
        [rewrite Ha; split; [exact IHk|split; assumption]|].
      assert (others = [])
        by (destruct others; [reflexivity|simpl in Hlen; lia]).
      subst others. simpl in IHk.
      destruct (progressIntervals st) as [|[k v] [|kv m]] eqn:Hm;
        try discriminate.
      simpl in IHk. inversion IHk as [Hk]. 
      pose proof (Forall_inv IHv) as Hv. simpl in Hv.
      rewrite resume_intervals, resume_awaiting, resume_nextIntervalId.
      simpl. rewrite Hm. simpl. rewrite Hk, String.eqb_refl.
      destruct (Nat.eqb_spec v 0) as [Hz|_]; [contradiction|].
      simpl. try rewrite String.eqb_refl. simpl.
      split; [reflexivity|]. split; [constructor|exact IHn].
    + destruct (pendingClears st); (split; [exact IHk|split; assumption]).
    + unfold handleDeleteImage.
      destruct (imageAt (imageGroups st) groupIdx imageIdx);
        (split; [exact IHk|split; assumption]).
    + unfold handleRestoreImage.
      destruct (imageAt (trash st) trashGroupIdx imageIdx);
        (split; [exact IHk|split; assumption]).
    + split; [exact IHk|split; assumption].
Qed.

End MoreQueue.

Section QueueExtras.
Import JS App.

Lemma reachable_run events : forall st, reachable st -> reachable (run st events).
Proof.
  induction events as [|e rest IH]; intros st H; [exact H|].
  apply (IH (step st e)). apply reach_step. exact H.
Qed.

(** After its passage the images of the task are all completed or all
    failed. *)
Lemma passage_terminal st task rest ticks b :
  reachable st ->
  isProcessing st = false ->
  taskQueue st = task :: rest ->
  Forall terminal
    (imagesOfTask (task_id task) (imageGroups (run st (passage task ticks b)))).
Proof.
  intros Hreach Hidle Hqueue.
  destruct (awaiting_invariant st Hreach) as [_ Hawait].
  destruct (passage_result st task rest ticks b Hidle (Hawait Hidle) Hqueue)
    as [k [Hg _]].
  rewrite Hg, imagesOfTask_updateImageStatus. apply Forall_map.
  destruct (snd (gatewayCall b task)) as [err|newImages] eqn:Hcall; simpl.
  - rewrite imagesOfTask_updateImageStatus. apply Forall_map.
    apply Forall_forall. intros img _. right. reflexivity.
  - destruct (generateStyledImages_resolved _ _ _ _ _ _ _ Hcall) as [_ Htruthy].
    rewrite <- (rev_involutive newImages).
    rewrite reconcile_spec;
      [|reflexivity
       |apply iter_tick_generating, started_generating
       |apply Forall_rev; exact Htruthy].
    eapply Forall_impl; [|apply completeAll_completed].
    intros img [Hs _]. left. exact Hs.
Qed.

(** What a passage does to the images of the other tasks. *)
Lemma passage_others st task rest ticks b :
  reachable st ->
  isProcessing st = false ->
  taskQueue st = task :: rest ->
  othersThan (task_id task) (imageGroups (run st (passage task ticks b)))
  = match snd (gatewayCall b task) with
    | inr _ => filter notGenerating (othersThan (task_id task) (imageGroups st))
    | inl _ => othersThan (task_id task) (imageGroups st)
    end.
Proof.
  intros Hreach Hidle Hqueue.
  destruct (awaiting_invariant st Hreach) as [_ Hawait].
  destruct (passage_result st task rest ticks b Hidle (Hawait Hidle) Hqueue)
    as [k [Hg _]].
  rewrite Hg, othersThan_updateImageStatus.
  destruct (snd (gatewayCall b task)) as [err|newImages]; simpl.
  - rewrite othersThan_updateImageStatus, othersThan_iter_tick.
    apply othersThan_updateImageStatus.
  - rewrite reconcile_others, othersThan_iter_tick,
      othersThan_updateImageStatus. reflexivity.
Qed.

Lemma Forall_filter (A : Type) (P : A -> Prop) (p : A -> bool) (l : list A) :
  Forall P l -> Forall P (filter p l).
Proof.
  intros H. apply Forall_forall. intros x Hx. apply filter_In in Hx.
  rewrite Forall_forall in H. apply H. apply Hx.
Qed.

(** Draining the queue, one passage per task: what was terminal stays
    terminal, what is processed becomes terminal. *)
Lemma drain_terminal ticks : forall jobs st,
  reachable st ->
  isProcessing st = false ->
  taskQueue st = map fst jobs ->
  NoDup (map (fun job => task_id (fst job)) jobs) ->
  let final :=
    run st (flat_map (fun job => passage (fst job) ticks (snd job)) jobs) in
  taskQueue final = [] /\ isProcessing final = false /\ awaiting final = []
  /\ forall t,
       In t (map (fun job => task_id (fst job)) jobs)
       \/ Forall terminal (imagesOfTask t (imageGroups st)) ->
       Forall terminal (imagesOfTask t (imageGroups final)).
Proof.
  induction jobs as [|[task b] js IH]; intros st Hreach Hidle Hqueue Hnodup.
  - simpl. destruct (awaiting_invariant st Hreach) as [_ Hawait].
    split; [exact Hqueue|]. split; [exact Hidle|]. split; [exact (Hawait Hidle)|].
    intros t [[]|H]. exact H.
  - simpl in Hqueue, Hnodup. cbn [flat_map]. rewrite run_app.
    destruct (awaiting_invariant st Hreach) as [_ Hawait].
    destruct (passage_result st task (map fst js) ticks b Hidle
                (Hawait Hidle) Hqueue) as [k [_ [Hq1 [Hp1 _]]]].
    pose proof (reachable_run (passage task ticks b) st Hreach) as Hreach1.
    pose proof (passage_terminal st task (map fst js) ticks b Hreach Hidle Hqueue)
      as Hterm.
    pose proof (passage_others st task (map fst js) ticks b Hreach Hidle Hqueue)
      as Hothers.
    set (st1 := run st (passage task ticks b)) in *.
    destruct (IH st1 Hreach1 Hp1 Hq1
                (proj2 (proj1 (NoDup_cons_iff _ _) Hnodup)))
      as [F1 [F2 [F3 F4]]].
    split; [exact F1|]. split; [exact F2|]. split; [exact F3|].
    intros t Ht. apply F4.
    destruct (string_dec t (task_id task)) as [->|Hne].
    + right. exact Hterm.
    + destruct Ht as [[Heq|Hin]|Hold].
      * simpl in Heq. contradiction Hne. symmetry. exact Heq.
      * left. exact Hin.
      * right. rewrite (imagesOfTask_othersThan t (task_id task) _ Hne), Hothers.
        rewrite (imagesOfTask_othersThan t (task_id task) _ Hne) in Hold.
        destruct (snd (gatewayCall b task)); [exact Hold|].
        clear -Hold.
        induction (othersThan (task_id task) (imageGroups st)) as [|img l IHl];
          [constructor|].
        simpl in *. destruct (notGenerating img); simpl.
        -- destruct (hasTaskId t img); [|apply IHl; exact Hold].
           constructor; [exact (Forall_inv Hold)|].
           apply IHl. exact (Forall_inv_tail Hold).
        -- destruct (hasTaskId t img); apply IHl;
             [exact (Forall_inv_tail Hold)|exact Hold].
Qed.

End QueueExtras.



(** X8. In every reachable state the task whose gateway call is
    outstanding is the head of the queue and the flag is up; when its call
    settles, with whatever outcome, exactly that head leaves the queue, the
    tasks behind it keep their order, and the queue is idle again. *)
Theorem X8_settled_task_leaves_the_head :
  forall (st : App.State) (task : App.Task) (b : Gateway.Backend),
    App.reachable st ->
    App.awaiting st = [task] ->
    exists rest,
      App.taskQueue st = task :: rest
      /\ App.isProcessing st = true
      /\ App.taskQueue (App.step st (App.GatewaySettles b)) = rest
      /\ App.awaiting (App.step st (App.GatewaySettles b)) = []
      /\ App.isProcessing (App.step st (App.GatewaySettles b)) = false.
Proof.
  intros st task b Hreach Ha.
  destruct (awaiting_is_head st Hreach task Ha) as [rest Hq].
  destruct (awaiting_invariant st Hreach) as [_ Hidle].
  exists rest. split; [exact Hq|]. split.
  { destruct (App.isProcessing st); [reflexivity|].
    rewrite (Hidle eq_refl) in Ha. discriminate. }
  simpl. rewrite Ha. unfold App.processQueueResume.
  destruct (snd (App.gatewayCall b task)); simpl; rewrite Hq;
    repeat split; reflexivity.
Qed.

Lemma X8_witness :
  exists rest,
    App.taskQueue twoDispatched = catTask "task-a" 2 false :: rest
    /\ App.isProcessing twoDispatched = true
    /\ App.taskQueue (App.step twoDispatched (App.GatewaySettles (textBackend [])))
       = rest
    /\ App.awaiting (App.step twoDispatched (App.GatewaySettles (textBackend [])))
       = []
    /\ App.isProcessing
         (App.step twoDispatched (App.GatewaySettles (textBackend [])))
       = false.
Proof.
  apply (X8_settled_task_leaves_the_head twoDispatched
           (catTask "task-a" 2 false) (textBackend [])).
  - apply App.reach_step, twoQueued_reachable.
  - reflexivity.
Defined.

(** X9. In every reachable state the interval map holds an entry exactly
    for the task whose call is outstanding: [stopProgress] releases every
    interval [startProgress] registered.  While the queue is idle an
    interval callback for any task id changes nothing. *)
Theorem X9_interval_registered_only_while_dispatched :
  forall (st : App.State),
    App.reachable st ->
    map fst (App.progressIntervals st) = map App.task_id (App.awaiting st)
    /\ (App.isProcessing st = false ->
        App.progressIntervals st = []
        /\ forall t, App.step st (App.IntervalFires t) = st).
Proof.
  intros st Hreach.
  destruct (intervals_invariant st Hreach) as [Hk _].
  destruct (awaiting_invariant st Hreach) as [_ Hidle].
  split; [exact Hk|]. intros Hp.
  rewrite (Hidle Hp) in Hk. simpl in Hk.
  assert (Hm : App.progressIntervals st = [])
    by (destruct (App.progressIntervals st); [reflexivity|discriminate]).
  split; [exact Hm|]. intros t. simpl. rewrite Hm. reflexivity.
Qed.

Lemma X9_witness :
  let st := App.run twoDispatched [App.GatewaySettles (textBackend ["AAAA"])] in
  map fst (App.progressIntervals st) = map App.task_id (App.awaiting st)
  /\ (App.isProcessing st = false ->
      App.progressIntervals st = []
      /\ forall t, App.step st (App.IntervalFires t) = st).
Proof.
  apply (X9_interval_registered_only_while_dispatched
           (App.run twoDispatched [App.GatewaySettles (textBackend ["AAAA"])])).
  apply App.reach_step, App.reach_step, twoQueued_reachable.
Defined.

(** X10. The passage of a task through the queue leaves the images of the
    other tasks (and the images without task id) as they were when its call
    fails; when its call succeeds it keeps them unchanged too, except that
    every one of them that is generating is dropped from the gallery.  The
    trash is not touched. *)
Theorem X10_passage_and_the_other_images :
  forall (st : App.State) (task : App.Task) (rest : list App.Task)
         (b : Gateway.Backend) (ticks : nat),
    App.reachable st ->
    App.isProcessing st = false ->
    App.taskQueue st = task :: rest ->
    let final := App.run st (passage task ticks b) in
    othersThan (App.task_id task) (App.imageGroups final)
    = match snd (App.gatewayCall b task) with
      | inr _ =>
          filter App.notGenerating
            (othersThan (App.task_id task) (App.imageGroups st))
      | inl _ => othersThan (App.task_id task) (App.imageGroups st)
      end
    /\ App.trash final = App.trash st.
Proof.
  intros st task rest b ticks Hreach Hidle Hqueue final.
  split; [apply (passage_others st task rest ticks b Hreach Hidle Hqueue)|].
  destruct (awaiting_invariant st Hreach) as [_ Hawait].
  destruct (passage_result st task rest ticks b Hidle (Hawait Hidle) Hqueue)
    as [k [_ [_ [_ [_ [Ht _]]]]]].
  exact Ht.
Qed.

Lemma X10_witness :
  let st := twoTasksQueued in
  let task := catTask "task-a" 2 false in
  let b := textBackend ["AAAA"] in
  let final := App.run st (passage task 3 b) in
  othersThan (App.task_id task) (App.imageGroups final)
  = match snd (App.gatewayCall b task) with
    | inr _ =>
        filter App.notGenerating
          (othersThan (App.task_id task) (App.imageGroups st))
    | inl _ => othersThan (App.task_id task) (App.imageGroups st)
    end
  /\ App.trash final = App.trash st.
Proof.
  apply (X10_passage_and_the_other_images twoTasksQueued
           (catTask "task-a" 2 false) [catTask "task-b" 1 false]
           (textBackend ["AAAA"]) 3).
  - apply App.reach_step, App.reach_step, App.reach_initial.
  - reflexivity.
  - reflexivity.
Defined.

(** X11. From a reachable idle state whose queue holds tasks with distinct
    ids, one passage per task in queue order empties the queue and leaves it
    idle with no call outstanding; afterwards every image of every one of
    these tasks that is still in the gallery is completed or failed: none is
    left queued or generating, whichever calls failed. *)
Theorem X11_queue_drains_in_order :
  forall (jobs : list (App.Task * Gateway.Backend)) (st : App.State)
         (ticks : nat),
    App.reachable st ->
    App.isProcessing st = false ->
    App.taskQueue st = map fst jobs ->
    NoDup (map (fun job => App.task_id (fst job)) jobs) ->
    let final :=
      App.run st
        (flat_map (fun job => passage (fst job) ticks (snd job)) jobs) in
    App.taskQueue final = []
    /\ App.isProcessing final = false
    /\ App.awaiting final = []
    /\ forall job, In job jobs ->
         Forall terminal
           (App.imagesOfTask (App.task_id (fst job)) (App.imageGroups final)).
Proof.
  intros jobs st ticks Hreach Hidle Hqueue Hnodup final.
  destruct (drain_terminal ticks jobs st Hreach Hidle Hqueue Hnodup)
    as [H1 [H2 [H3 H4]]].
  split; [exact H1|]. split; [exact H2|]. split; [exact H3|].
  intros job Hin. apply H4. left.
  apply in_map_iff. exists job. split; [reflexivity|exact Hin].
Qed.

Lemma X11_witness :
  let final :=
    App.run twoTasksQueued
      (flat_map (fun job => passage (fst job) 3 (snd job)) twoJobs) in
  App.taskQueue final = []
  /\ App.isProcessing final = false
  /\ App.awaiting final = []
  /\ forall job, In job twoJobs ->
       Forall terminal
         (App.imagesOfTask (App.task_id (fst job)) (App.imageGroups final)).
Proof.
  apply (X11_queue_drains_in_order twoJobs twoTasksQueued 3).
  - apply App.reach_step, App.reach_step, App.reach_initial.
  - reflexivity.
  - reflexivity.
  - repeat constructor; simpl; intuition discriminate.
Defined.

(* ================================================================== *)
(** ** Gallery and trash: moving one image *)
(* ================================================================== *)

Section MoreCollections.
Import JS App.

Lemma filteri_from_hit (A : Type) (k : nat) (x : A) : forall (l : list A) i0,
  i0 <= k ->
  nth_error l (k - i0) = Some x ->
  exists a b,
    l = (a ++ x :: b)%list
    /\ filteri_from (fun _ iIdx => negb (iIdx =? k)) i0 l = (a ++ b)%list.
Proof.
  induction l as [|y rest IH]; intros i0 Hle Hnth.
  - destruct (k - i0); discriminate.
  - simpl. destruct (Nat.eqb_spec i0 k) as [->|Hne].
    + rewrite Nat.sub_diag in Hnth. inversion Hnth; subst y.
      exists [], rest. simpl. split; [reflexivity|].
      apply filteri_from_miss. left. lia.
    + replace (k - i0) with (S (k - S i0)) in Hnth by lia. simpl in Hnth.
      destruct (IH (S i0) ltac:(lia) Hnth) as [a [b [H1 H2]]].
      exists (y :: a), b. simpl. rewrite H1 at 1. rewrite H2.
      split; reflexivity.
Qed.

Lemma mapi_from_hit groupIdx imageIdx img : forall groups i0 g,
  i0 <= groupIdx ->
  nth_error groups (groupIdx - i0) = Some g ->
  nth_error (images g) imageIdx = Some img ->
  exists l1 l2,
    allImages groups = (l1 ++ img :: l2)%list
    /\ allImages
         (mapi_from
            (fun group gIdx =>
               if negb (gIdx =? groupIdx) then group
               else withImages group
                      (filteri (fun _ iIdx => negb (iIdx =? imageIdx))
                         (images group)))
            i0 groups)
       = (l1 ++ l2)%list.
Proof.
  induction groups as [|g0 rest IH]; intros i0 g Hle Hg Himg.
  - destruct (groupIdx - i0); discriminate.
  - cbn [mapi_from]. destruct (Nat.eqb_spec i0 groupIdx) as [->|Hne].
    + rewrite Nat.sub_diag in Hg. inversion Hg; subst g0.
      destruct (filteri_from_hit _ imageIdx img (images g) 0 (Nat.le_0_l _))
        as [a [b [H1 H2]]]; [rewrite Nat.sub_0_r; exact Himg|].
      exists a, (b ++ allImages rest)%list.
      unfold allImages in *. cbn [flat_map negb images withImages].
      fold (allImages
              (mapi_from
                 (fun group gIdx =>
                    if negb (gIdx =? groupIdx) then group
                    else withImages group
                           (filteri (fun _ iIdx => negb (iIdx =? imageIdx))
                              (images group)))
                 (S groupIdx) rest)).
      rewrite mapi_from_miss by (left; lia).
      unfold filteri. rewrite H2. rewrite H1 at 1.
      unfold allImages. rewrite <- !app_assoc. split; reflexivity.
    + replace (groupIdx - i0) with (S (groupIdx - S i0)) in Hg by lia.
      simpl in Hg.
      destruct (IH (S i0) g ltac:(lia) Hg Himg) as [l1 [l2 [H1 H2]]].
      exists (images g0 ++ l1)%list, l2.
      unfold allImages in *. cbn [flat_map negb].
      rewrite H1, H2, <- !app_assoc. split; reflexivity.
Qed.

(** [removeAt] at the indices of an image takes exactly that image out. *)
Lemma removeAt_hit groups groupIdx imageIdx img :
  imageAt groups groupIdx imageIdx = Some img ->
  exists l1 l2,
    allImages groups = (l1 ++ img :: l2)%list
    /\ allImages (removeAt groups groupIdx imageIdx) = (l1 ++ l2)%list.
Proof.
  intros H. unfold imageAt in H.
  destruct (nth_error groups groupIdx) as [g|] eqn:Hg; [|discriminate].
  unfold removeAt. rewrite allImages_filter_nonEmpty. unfold mapi.
  apply (mapi_from_hit groupIdx imageIdx img groups 0 g (Nat.le_0_l _));
    [rewrite Nat.sub_0_r; exact Hg|exact H].
Qed.

Lemma map_unmatched d img (l : list ImageGroup) :
  ~ In d (map date l) ->
  map (fun g => if String.eqb (date g) d
                then withImages g (img :: images g) else g) l
  = l.
Proof.
  induction l as [|g rest IH]; intros H; simpl; [reflexivity|].
  simpl in H. destruct (String.eqb_spec (date g) d) as [E|_].
  - contradiction H. left. exact E.
  - rewrite IH; [reflexivity|]. intros Hin. apply H. right. exact Hin.
Qed.

(** With one group per date, [moveToTrash] adds the image once, and the
    image heads the group of that date. *)
Lemma moveToTrash_spec d img prevTrash :
  NoDup (map date prevTrash) ->
  (exists m1 m2,
      allImages prevTrash = (m1 ++ m2)%list
      /\ allImages (moveToTrash d img prevTrash) = (m1 ++ img :: m2)%list)
  /\ (exists g,
         find (fun h => String.eqb (date h) d) (moveToTrash d img prevTrash)
         = Some g
         /\ hd_error (images g) = Some img).
Proof.
  intros Hnodup. unfold moveToTrash.
  destruct (find _ prevTrash) as [found|] eqn:Hfind.
  - assert (Hsome : forall l, (exists x, find (fun g => String.eqb (date g) d) l = Some x) ->
      NoDup (map date l) ->
      (exists m1 m2,
          allImages l = (m1 ++ m2)%list
          /\ allImages
               (map (fun g => if String.eqb (date g) d
                              then withImages g (img :: images g) else g) l)
             = (m1 ++ img :: m2)%list)
      /\ (exists g,
             find (fun h => String.eqb (date h) d)
               (map (fun g => if String.eqb (date g) d
                              then withImages g (img :: images g) else g) l)
             = Some g
             /\ hd_error (images g) = Some img)).
    { unfold allImages.
      induction l as [|g rest IH]; intros [x Hx] Hnd; simpl in Hx; [discriminate|].
      simpl. simpl in Hnd. apply NoDup_cons_iff in Hnd. destruct Hnd as [Hnotin Hnd].
      destruct (String.eqb (date g) d) eqn:Hd.
      - apply String.eqb_eq in Hd. rewrite <- Hd in *.
        rewrite map_unmatched by exact Hnotin. simpl.
        rewrite String.eqb_refl. split.
        + exists [], (images g ++ flat_map images rest)%list.
          split; reflexivity.
        + exists (withImages g (img :: images g)). split; reflexivity.
      - destruct (IH (ex_intro _ x Hx) Hnd) as [[m1 [m2 [H1 H2]]] [g' Hg']].
        rewrite Hd. split.
        + exists (images g ++ m1)%list, m2. rewrite H1, H2, <- !app_assoc.
          split; reflexivity.
        + exists g'. exact Hg'. }
    apply Hsome; [eexists; exact Hfind|exact Hnodup].
  - split.
    + exists [], (allImages prevTrash). split; reflexivity.
    + exists {| date := d; images := [img] |}. simpl.
      rewrite String.eqb_refl. split; reflexivity.
Qed.

End MoreCollections.

Section RoundTrip.
Import JS App.

Lemma filteri_drop_head (A : Type) (x : A) (l : list A) :
  filteri (fun _ iIdx => negb (iIdx =? 0)) (x :: l) = l.
Proof.
  unfold filteri. simpl. apply filteri_from_miss. left. lia.
Qed.

Lemma find_findIndex (A : Type) (p : A -> bool) : forall (l : list A) x,
  find p l = Some x -> exists k, findIndex p l = Some k.
Proof.
  induction l as [|y rest IH]; intros x H; simpl in *; [discriminate|].
  destruct (p y); [exists 0; reflexivity|].
  destruct (IH x H) as [k Hk]. rewrite Hk. exists (S k). reflexivity.
Qed.

(** With one group per date: the image [moveToTrash] has put into the group
    of date [d] is the first image of the first group of that date, and
    taking it out again leaves the images the trash held before. *)
Lemma marked_then_removed d img : forall (l : list ImageGroup) i0 k,
  findIndex (fun h => String.eqb (date h) d) l = Some k ->
  NoDup (map date l) ->
  let marked :=
    map (fun g => if String.eqb (date g) d
                  then withImages g (img :: images g) else g) l in
  findIndex (fun h => String.eqb (date h) d) marked = Some k
  /\ imageAt marked k 0 = Some img
  /\ forall K, K = i0 + k ->
       allImages
         (mapi_from
            (fun group gIdx =>
               if negb (gIdx =? K) then group
               else withImages group
                      (filteri (fun _ iIdx => negb (iIdx =? 0)) (images group)))
            i0 marked)
       = allImages l.
Proof.
  induction l as [|g rest IH]; intros i0 k Hk Hnd; simpl in Hk; [discriminate|].
  simpl in Hnd. apply NoDup_cons_iff in Hnd. destruct Hnd as [Hnotin Hnd].
  cbn [map]. destruct (String.eqb (date g) d) eqn:Hd.
  - inversion Hk; subst k. apply String.eqb_eq in Hd.
    rewrite <- Hd.
    rewrite (map_unmatched (date g) img rest Hnotin).
    cbn [findIndex date withImages]. rewrite String.eqb_refl.
    split; [reflexivity|]. split; [reflexivity|].
    intros K ->. rewrite Nat.add_0_r. cbn [mapi_from].
    rewrite Nat.eqb_refl. cbn [negb images withImages].
    rewrite filteri_drop_head.
    unfold allImages. cbn [flat_map images]. f_equal.
    apply (mapi_from_miss i0 0 rest (S i0)). left. lia.
  - destruct (findIndex _ rest) as [k'|] eqn:Hrest; [|discriminate].
    inversion Hk; subst k.
    destruct (IH (S i0) k' eq_refl Hnd) as [H1 [H2 H3]].
    cbn [findIndex]. rewrite Hd.
    split; [cbv zeta in H1; rewrite H1; reflexivity|].
    split; [exact H2|].
    intros K ->. cbn [mapi_from].
    destruct (Nat.eqb_spec i0 (i0 + S k')) as [E|_]; [lia|].
    cbn [negb]. unfold allImages. cbn [flat_map]. f_equal.
    apply H3. lia.
Qed.

Lemma moveToTrash_then_removeAt d img prevTrash :
  NoDup (map date prevTrash) ->
  exists k,
    findIndex (fun h => String.eqb (date h) d) (moveToTrash d img prevTrash)
    = Some k
    /\ imageAt (moveToTrash d img prevTrash) k 0 = Some img
    /\ allImages (removeAt (moveToTrash d img prevTrash) k 0)
       = allImages prevTrash.
Proof.
  intros Hnd. unfold moveToTrash.
  destruct (find _ prevTrash) as [found|] eqn:Hfind.
  - destruct (find_findIndex _ _ _ _ Hfind) as [k Hk].
    destruct (marked_then_removed d img prevTrash 0 k Hk Hnd) as [H1 [H2 H3]].
    exists k. split; [exact H1|]. split; [exact H2|].
    unfold removeAt. rewrite allImages_filter_nonEmpty. unfold mapi.
    apply H3. reflexivity.
  - exists 0. simpl. rewrite String.eqb_refl.
    split; [reflexivity|]. split; [reflexivity|].
    unfold removeAt. rewrite allImages_filter_nonEmpty. unfold mapi.
    cbn [mapi_from Nat.eqb negb images withImages].
    rewrite filteri_drop_head.
    unfold allImages. cbn [flat_map images app].
    apply (mapi_from_miss 0 0 prevTrash 1). left. lia.
Qed.

End RoundTrip.

Section CollectionInvariants.
Import JS App.

Lemma dates_withImages (F : ImageGroup -> list ImageItem) groups :
  map date (map (fun group => withImages group (F group)) groups)
  = map date groups.
Proof. rewrite map_map. reflexivity. Qed.

Lemma dates_reconcile task : forall groups newImages,
  map date (fst (reconcile task groups newImages)) = map date groups.
Proof.
  induction groups as [|g rest IH]; intros newImages; [reflexivity|].
  simpl. destruct (assignImages task (images g) newImages) as [mapped n1].
  specialize (IH n1). destruct (reconcile task rest n1) as [rest' n2].
  simpl in *. rewrite IH. reflexivity.
Qed.

Lemma dates_mapi_from (F : ImageGroup -> nat -> ImageGroup) :
  (forall g i, date (F g i) = date g) ->
  forall groups i0, map date (mapi_from F i0 groups) = map date groups.
Proof.
  intros HF. induction groups as [|g rest IH]; intros i0; [reflexivity|].
  simpl. rewrite HF, IH. reflexivity.
Qed.

(** Dropping groups cannot make two dates equal. *)
Lemma uniqueDates_filter (keep : ImageGroup -> bool) : forall groups,
  uniqueDates groups -> uniqueDates (filter keep groups).
Proof.
  unfold uniqueDates.
  induction groups as [|g rest IH]; intros H; simpl; [constructor|].
  simpl in H. apply NoDup_cons_iff in H. destruct H as [Hg Hrest].
  destruct (keep g); [|apply IH; exact Hrest].
  simpl. constructor; [|apply IH; exact Hrest].
  intros Hin. apply Hg. apply in_map_iff in Hin.
  destruct Hin as [h [Hh Hin]]. apply filter_In in Hin.
  apply in_map_iff. exists h. split; [exact Hh|apply Hin].
Qed.

Lemma uniqueDates_removeAt groups groupIdx imageIdx :
  uniqueDates groups -> uniqueDates (removeAt groups groupIdx imageIdx).
Proof.
  intros H. unfold removeAt. apply uniqueDates_filter.
  unfold uniqueDates, mapi. rewrite dates_mapi_from; [exact H|].
  intros g i. destruct (negb (i =? groupIdx)); reflexivity.
Qed.

Lemma findIndex_none (A : Type) (p : A -> bool) : forall (l : list A),
  findIndex p l = None -> forall x, In x l -> p x = false.
Proof.
  induction l as [|y rest IH]; intros H x Hin; [destruct Hin|].
  simpl in H. destruct (p y) eqn:Hy; [discriminate|].
  destruct (findIndex p rest) eqn:Hrest; [discriminate|].
  destruct Hin as [<-|Hin]; [exact Hy|]. apply IH; [reflexivity|exact Hin].
Qed.

Lemma dates_update_at k (f : ImageGroup -> ImageGroup) :
  (forall g, date (f g) = date g) ->
  forall groups, map date (update_at k f groups) = map date groups.
Proof.
  intros Hf. revert k. 
  assert (H : forall groups k, map date (update_at k f groups) = map date groups).
  { induction groups as [|g rest IH]; intros k; [destruct k; reflexivity|].
    destruct k as [|k]; simpl; [rewrite Hf; reflexivity|].
    rewrite IH. reflexivity. }
  intros k groups. apply H.
Qed.

Lemma uniqueDates_unshiftIntoDate d items prev :
  uniqueDates prev -> uniqueDates (unshiftIntoDate d items prev).
Proof.
  intros H. unfold uniqueDates, unshiftIntoDate.
  destruct (findIndex _ prev) as [k|] eqn:Hk.
  - rewrite dates_update_at; [exact H|]. intros g. reflexivity.
  - simpl. constructor; [|exact H].
    intros Hin. apply in_map_iff in Hin. destruct Hin as [g [Hg Hin]].
    pose proof (findIndex_none _ _ prev Hk g Hin) as Hfalse. simpl in Hfalse.
    rewrite Hg, String.eqb_refl in Hfalse. discriminate.
Qed.

Lemma moveToTrash_keeps d img prevTrash :
  uniqueDates prevTrash -> noEmptyGroup prevTrash ->
  uniqueDates (moveToTrash d img prevTrash)
  /\ noEmptyGroup (moveToTrash d img prevTrash).
Proof.
  intros Hu He. unfold uniqueDates, noEmptyGroup, moveToTrash in *.
  destruct (find _ prevTrash) as [found|] eqn:Hfind.
  - split.
    + rewrite map_map.
      replace (map (fun x => date (if String.eqb (date x) d
                                   then withImages x (img :: images x) else x))
                   prevTrash)
        with (map date prevTrash); [exact Hu|].
      apply map_ext. intros g. destruct (String.eqb (date g) d); reflexivity.
    + apply Forall_map. eapply Forall_impl; [|exact He].
      intros g Hg. destruct (String.eqb (date g) d); [discriminate|exact Hg].
  - split.
    + simpl. constructor; [|exact Hu].
      intros Hin. apply in_map_iff in Hin. destruct Hin as [g [Hg Hin]].
      pose proof (find_none _ _ Hfind g Hin) as Hfalse. simpl in Hfalse.
      rewrite Hg, String.eqb_refl in Hfalse. discriminate.
    + constructor; [discriminate|exact He].
Qed.

(** Every event keeps one group per date in the gallery and in the trash,
    and no empty group in the trash. *)
Lemma collections_step st e :
  uniqueDates (imageGroups st) /\ uniqueDates (trash st)
  /\ noEmptyGroup (trash st) ->
  uniqueDates (imageGroups (step st e)) /\ uniqueDates (trash (step st e))
  /\ noEmptyGroup (trash (step st e)).
Proof.
  intros [Hg [Ht He]]. destruct e; simpl.
  - split; [apply uniqueDates_unshiftIntoDate; exact Hg|split; assumption].
  - unfold processQueue.
    destruct (isProcessing st || _); [split; [exact Hg|split; assumption]|].
    destruct (taskQueue st); [split; [exact Hg|split; assumption]|].
    simpl. split; [|split; assumption].
    unfold uniqueDates, updateImageStatus. rewrite dates_withImages. exact Hg.
  - destruct (mapGet taskId' (progressIntervals st));
      [|split; [exact Hg|split; assumption]].
    simpl. split; [|split; assumption].
    unfold uniqueDates, tick. rewrite dates_withImages. exact Hg.
  - destruct (awaiting st) as [|task others];
      [split; [exact Hg|split; assumption]|].
    unfold processQueueResume.
    destruct (snd (gatewayCall b task)); simpl; (split; [|split; assumption]);
      unfold uniqueDates, updateImageStatus; rewrite dates_withImages.
    + rewrite dates_withImages. exact Hg.
    + rewrite dates_reconcile. exact Hg.
  - destruct (pendingClears st); [split; [exact Hg|split; assumption]|].
    simpl. split; [|split; assumption].
    unfold uniqueDates, updateImageStatus. rewrite dates_withImages. exact Hg.
  - unfold handleDeleteImage.
    destruct (imageAt (imageGroups st) groupIdx imageIdx) as [img|]; simpl.
    + split; [apply uniqueDates_removeAt; exact Hg|].
      apply moveToTrash_keeps; assumption.
    + split; [apply uniqueDates_removeAt; exact Hg|split; assumption].
  - unfold handleRestoreImage.
    destruct (imageAt (trash st) trashGroupIdx imageIdx) as [img|]; simpl.
    + split; [apply uniqueDates_unshiftIntoDate; exact Hg|].
      split; [apply uniqueDates_removeAt; exact Ht|apply removeAt_prunes].
    + split; [exact Hg|].
      split; [apply uniqueDates_removeAt; exact Ht|apply removeAt_prunes].
  - split; [exact Hg|].
    split; [apply uniqueDates_removeAt; exact Ht|apply removeAt_prunes].
Qed.

End CollectionInvariants.

(** X12. [handleDeleteImage] at the indices of a gallery image, with one
    trash group per date: exactly that image leaves the gallery, the other
    images keep their order and no gallery group is left empty; the trash
    gains exactly that image, unchanged, as the first image of the group
    dated today. *)
Theorem X12_delete_moves_the_image_to_the_trash :
  forall (st : App.State) (groupIdx imageIdx : nat) (localeDate : string)
         (img : App.ImageItem),
    App.imageAt (App.imageGroups st) groupIdx imageIdx = Some img ->
    uniqueDates (App.trash st) ->
    let st' := App.handleDeleteImage groupIdx imageIdx localeDate st in
    (exists l1 l2,
        App.allImages (App.imageGroups st) = (l1 ++ img :: l2)%list
        /\ App.allImages (App.imageGroups st') = (l1 ++ l2)%list)
    /\ noEmptyGroup (App.imageGroups st')
    /\ (exists m1 m2,
           App.allImages (App.trash st) = (m1 ++ m2)%list
           /\ App.allImages (App.trash st') = (m1 ++ img :: m2)%list)
    /\ (exists g,
           find (fun h => String.eqb (App.date h) (App.trashDate localeDate))
                (App.trash st') = Some g
           /\ hd_error (App.images g) = Some img).
Proof.
  intros st groupIdx imageIdx localeDate img Himg Hu st'.
  unfold st', App.handleDeleteImage. rewrite Himg. simpl.
  split; [apply removeAt_hit; exact Himg|].
  split; [apply removeAt_prunes|].
  apply moveToTrash_spec. exact Hu.
Qed.

Lemma X12_witness :
  let st := App.initial storedGallery storedTrash in
  let img := storedImage "img-1" "data:image/jpeg;base64,BBBB" in
  let st' := App.handleDeleteImage 0 1 "2025/1/1" st in
  (exists l1 l2,
      App.allImages (App.imageGroups st) = (l1 ++ img :: l2)%list
      /\ App.allImages (App.imageGroups st') = (l1 ++ l2)%list)
  /\ noEmptyGroup (App.imageGroups st')
  /\ (exists m1 m2,
         App.allImages (App.trash st) = (m1 ++ m2)%list
         /\ App.allImages (App.trash st') = (m1 ++ img :: m2)%list)
  /\ (exists g,
         find (fun h => String.eqb (App.date h) (App.trashDate "2025/1/1"))
              (App.trash st') = Some g
         /\ hd_error (App.images g) = Some img).
Proof.
  apply (X12_delete_moves_the_image_to_the_trash
           (App.initial storedGallery storedTrash) 0 1 "2025/1/1"
           (storedImage "img-1" "data:image/jpeg;base64,BBBB")).
  - reflexivity.
  - repeat constructor. simpl. intuition.
Defined.

(** What [handleRestoreImage] does at the indices of a trash image. *)
Lemma restore_moves st trashGroupIdx imageIdx dateString img :
  App.imageAt (App.trash st) trashGroupIdx imageIdx = Some img ->
  let st' := App.handleRestoreImage trashGroupIdx imageIdx dateString st in
  (exists m1 m2,
      App.allImages (App.trash st) = (m1 ++ img :: m2)%list
      /\ App.allImages (App.trash st') = (m1 ++ m2)%list)
  /\ noEmptyGroup (App.trash st')
  /\ (exists l1 l2,
         App.allImages (App.imageGroups st) = (l1 ++ l2)%list
         /\ App.allImages (App.imageGroups st') = (l1 ++ img :: l2)%list)
  /\ (exists g,
         find (fun h => String.eqb (App.date h) dateString)
              (App.imageGroups st') = Some g
         /\ hd_error (App.images g) = Some img).
Proof.
  intros Himg st'.
  unfold st', App.handleRestoreImage. rewrite Himg. simpl.
  split; [apply removeAt_hit; exact Himg|].
  split; [apply removeAt_prunes|].
  destruct (unshiftIntoDate_spec dateString [img] (App.imageGroups st))
    as [Himgs [g [Hg1 Hg2]]].
  split; [exact Himgs|].
  exists g. split; [exact Hg1|].
  simpl in Hg2. destruct (App.images g) as [|x xs]; [discriminate|].
  simpl in Hg2. inversion Hg2. reflexivity.
Qed.



(** X14. [handlePermanentlyDeleteImage] never changes the gallery and never
    leaves an empty trash group; at the indices of a trash image it takes
    exactly that image out of the trash, and at indices that name no image
    it takes none out. *)
Theorem X14_permanent_delete :
  forall (st : App.State) (trashGroupIdx imageIdx : nat),
    let st' := App.handlePermanentlyDeleteImage trashGroupIdx imageIdx st in
    App.imageGroups st' = App.imageGroups st
    /\ noEmptyGroup (App.trash st')
    /\ match App.imageAt (App.trash st) trashGroupIdx imageIdx with
       | Some img =>
           exists m1 m2,
             App.allImages (App.trash st) = (m1 ++ img :: m2)%list
             /\ App.allImages (App.trash st') = (m1 ++ m2)%list
       | None => App.allImages (App.trash st') = App.allImages (App.trash st)
       end.
Proof.
  intros st trashGroupIdx imageIdx st'.
  split; [reflexivity|]. split; [apply removeAt_prunes|].
  destruct (App.imageAt (App.trash st) trashGroupIdx imageIdx) as [img|] eqn:H.
  - apply removeAt_hit. exact H.
  - apply removeAt_miss. exact H.
Qed.

(** X15. Delete then restore is a round trip.  With one trash group per
    date, after [handleDeleteImage] the image is the first image of the
    first trash group dated today; restoring it from there gives the trash
    its former images back, the gallery holds the same images as before the
    deletion (up to the place of the restored one), and the restored image,
    unchanged, is the first image of the gallery group dated today. *)
Theorem X15_delete_then_restore_round_trip :
  forall (st : App.State) (groupIdx imageIdx : nat)
         (localeDate dateString : string) (img : App.ImageItem),
    App.imageAt (App.imageGroups st) groupIdx imageIdx = Some img ->
    uniqueDates (App.trash st) ->
    let deleted := App.handleDeleteImage groupIdx imageIdx localeDate st in
    exists k,
      JS.findIndex
        (fun h => String.eqb (App.date h) (App.trashDate localeDate))
        (App.trash deleted) = Some k
      /\ App.imageAt (App.trash deleted) k 0 = Some img
      /\ let restored := App.handleRestoreImage k 0 dateString deleted in
         App.allImages (App.trash restored) = App.allImages (App.trash st)
         /\ Permutation (App.allImages (App.imageGroups restored))
                        (App.allImages (App.imageGroups st))
         /\ exists g,
              find (fun h => String.eqb (App.date h) dateString)
                   (App.imageGroups restored) = Some g
              /\ hd_error (App.images g) = Some img.
Proof.
  intros st groupIdx imageIdx localeDate dateString img Himg Hu deleted.
  destruct (moveToTrash_then_removeAt (App.trashDate localeDate) img
              (App.trash st) Hu) as [k [Hk [Hat Hback]]].
  assert (Htrash : App.trash deleted
                   = App.moveToTrash (App.trashDate localeDate) img (App.trash st)).
  { unfold deleted, App.handleDeleteImage. rewrite Himg. reflexivity. }
  assert (Hgal : App.imageGroups deleted
                 = App.removeAt (App.imageGroups st) groupIdx imageIdx).
  { unfold deleted, App.handleDeleteImage. rewrite Himg. reflexivity. }
  exists k. rewrite Htrash. split; [exact Hk|]. split; [exact Hat|].
  intros restored.
  assert (Hat' : App.imageAt (App.trash deleted) k 0 = Some img)
    by (rewrite Htrash; exact Hat).
  destruct (restore_moves deleted k 0 dateString img Hat') as [_ [_ [[a [b0 [Ha Hb]]] Hhead]]].
  fold restored in Hb, Hhead.
  split.
  { unfold restored, App.handleRestoreImage. rewrite Hat'. simpl.
    rewrite Htrash. exact Hback. }
  split; [|exact Hhead].
  destruct (removeAt_hit _ _ _ _ Himg) as [l1 [l2 [H1 H2]]].
  rewrite Hb, H1. rewrite Hgal, H2 in Ha.
  apply Permutation_trans with (img :: a ++ b0)%list.
  - apply Permutation_sym, Permutation_middle.
  - rewrite <- Ha. apply Permutation_middle.
Qed.

Lemma X15_witness :
  let st := App.initial storedGallery storedTrash in
  let img := storedImage "img-1" "data:image/jpeg;base64,BBBB" in
  let deleted := App.handleDeleteImage 0 1 "2025/1/1" st in
  exists k,
    JS.findIndex
      (fun h => String.eqb (App.date h) (App.trashDate "2025/1/1"))
      (App.trash deleted) = Some k
    /\ App.imageAt (App.trash deleted) k 0 = Some img
    /\ let restored := App.handleRestoreImage k 0 "day 1" deleted in
       App.allImages (App.trash restored) = App.allImages (App.trash st)
       /\ Permutation (App.allImages (App.imageGroups restored))
                      (App.allImages (App.imageGroups st))
       /\ exists g,
            find (fun h => String.eqb (App.date h) "day 1")
                 (App.imageGroups restored) = Some g
            /\ hd_error (App.images g) = Some img.
Proof.
  apply (X15_delete_then_restore_round_trip
           (App.initial storedGallery storedTrash) 0 1 "2025/1/1" "day 1"
           (storedImage "img-1" "data:image/jpeg;base64,BBBB")).
  - reflexivity.
  - repeat constructor. simpl. intuition.
Defined.

(** X16. Whatever happens to the component (submissions, dispatches, ticks,
    settled calls, deletions, restorations), a gallery and a trash that have
    one group per date keep one group per date, and a trash without an
    empty group never gets one. *)
Theorem X16_dates_stay_unique_and_trash_groups_non_empty :
  forall (events : list App.Event) (st : App.State),
    uniqueDates (App.imageGroups st) ->
    uniqueDates (App.trash st) ->
    noEmptyGroup (App.trash st) ->
    uniqueDates (App.imageGroups (App.run st events))
    /\ uniqueDates (App.trash (App.run st events))
    /\ noEmptyGroup (App.trash (App.run st events)).
Proof.
  induction events as [|e rest IH]; intros st Hg Ht He.
  - split; [exact Hg|split; assumption].
  - destruct (collections_step st e (conj Hg (conj Ht He))) as [Hg' [Ht' He']].
    apply (IH (App.step st e) Hg' Ht' He').
Qed.

Lemma X16_witness :
  let st := App.initial storedGallery storedTrash in
  let events :=
    [App.DeleteImage 0 0 "2025/1/1";
     App.Enqueue (catRequest 2 false) "task-a" "day 2";
     App.QueueEffect;
     App.GatewaySettles (textBackend ["AAAA"]);
     App.RestoreImage 0 1 "day 2";
     App.PermanentlyDeleteImage 0 0] in
  uniqueDates (App.imageGroups (App.run st events))
  /\ uniqueDates (App.trash (App.run st events))
  /\ noEmptyGroup (App.trash (App.run st events)).
Proof.
  apply (X16_dates_stay_unique_and_trash_groups_non_empty
           [App.DeleteImage 0 0 "2025/1/1";
            App.Enqueue (catRequest 2 false) "task-a" "day 2";
            App.QueueEffect;
            App.GatewaySettles (textBackend ["AAAA"]);
            App.RestoreImage 0 1 "day 2";
            App.PermanentlyDeleteImage 0 0]
           (App.initial storedGallery storedTrash)).
  - repeat constructor. simpl. intuition.
  - repeat constructor. simpl. intuition.
  - repeat constructor. discriminate.
Defined.

(* ================================================================== *)
(** ** The progress signal saturates *)
(* ================================================================== *)

Section Saturation.
Import JS App.
Local Open Scope Q_scope.

Lemma inject_succ (n : nat) :
  inject_Z (Z.of_nat (S n)) == inject_Z (Z.of_nat n) + 1.
Proof. rewrite Nat2Z.inj_succ, <- Z.add_1_r, inject_Z_plus. reflexivity. Qed.

(** After [n] ticks an image in flight is still in flight, and its progress
    is 95 or has grown by at least [n]. *)
Lemma ticks_climb t img p0 :
  hasTaskId t img = true ->
  status img = generating ->
  progress img = Some p0 ->
  p0 <= 95 ->
  forall n,
    hasTaskId t (Nat.iter n (tickImage t) img) = true
    /\ status (Nat.iter n (tickImage t) img) = generating
    /\ exists q,
         progress (Nat.iter n (tickImage t) img) = Some q
         /\ q <= 95
         /\ (95 <= q \/ p0 + inject_Z (Z.of_nat n) <= q).
Proof.
  intros Ht Hs Hp Hle. induction n as [|n [IHt [IHs [q [IHq [IHle IHor]]]]]].
  - simpl. split; [exact Ht|]. split; [exact Hs|].
    exists p0. split; [exact Hp|]. split; [exact Hle|].
    right. change (inject_Z 0) with 0. rewrite Qplus_0_r. apply Qle_refl.
  - cbn [Nat.iter nat_rect]. 
    change (nat_rect (fun _ => ImageItem) img (fun _ => tickImage t) n)
      with (Nat.iter n (tickImage t) img).
    set (cur := Nat.iter n (tickImage t) img) in *.
    split; [rewrite hasTaskId_tickImage; exact IHt|].
    split; [rewrite status_tickImage; exact IHs|].
    unfold tickImage. rewrite IHt, IHs. cbn [Status_eqb andb].
    unfold progressOrZero. rewrite IHq.
    destruct (below95 q) eqn:Hb.
    + apply below95_true in Hb. cbn [progress withProgress].
      exists (nextProgress q). split; [reflexivity|].
      split; [apply nextProgress_le_95|].
      pose proof (nextProgress_eq q) as Heq.
      pose proof (increment_ge_1 q) as Hinc. unfold increment in Hinc.
      destruct IHor as [H95|Hgrow];
        [exfalso; exact (Qlt_not_le _ _ Hb H95)|].
      destruct (Q.min_spec (q + Qmax 1 ((95 - q) / 15)) 95) as [[_ Hm]|[_ Hm]];
        rewrite Hm in Heq.
      * right. rewrite inject_succ.
        set (m := Qmax 1 ((95 - q) / 15)) in *.
        set (np := nextProgress q) in *.
        set (steps := inject_Z (Z.of_nat n)) in *.
        clearbody m np steps. clear -Heq Hinc Hgrow. lra.
      * left. rewrite Heq. apply Qle_refl.
    + apply below95_false in Hb.
      exists q. split; [exact IHq|]. split; [exact IHle|]. left. exact Hb.
Qed.

End Saturation.

(** X17. The synthetic progress saturates: an image of the dispatched task
    that is generating with a progress between 0 and 95 has, after 95 ticks
    or more, progress exactly 95, and it is still generating: the signal
    never completes on its own. *)
Theorem X17_progress_saturates_within_95_ticks :
  forall (t : string) (img : App.ImageItem) (n : nat),
    App.hasTaskId t img = true ->
    inFlight img ->
    95 <= n ->
    App.status (Nat.iter n (App.tickImage t) img) = App.generating
    /\ exists q,
         App.progress (Nat.iter n (App.tickImage t) img) = Some q
         /\ (q == 95)%Q.
Proof.
  intros t img n Ht [Hs [p0 [Hp [H0 H95]]]] Hn.
  destruct (ticks_climb t img p0 Ht Hs Hp H95 n)
    as [_ [Hs' [q [Hq [Hle Hor]]]]].
  split; [exact Hs'|]. exists q. split; [exact Hq|].
  apply Qle_antisym; [exact Hle|].
  destruct Hor as [H|H]; [exact H|].
  assert (Hn' : (95 <= inject_Z (Z.of_nat n))%Q).
  { change 95%Q with (inject_Z 95). rewrite <- Zle_Qle. lia. }
  lra.
Qed.

Lemma X17_witness :
  App.status (Nat.iter 95 (App.tickImage "task-a") startedImage)
    = App.generating
  /\ exists q,
       App.progress (Nat.iter 95 (App.tickImage "task-a") startedImage) = Some q
       /\ (q == 95)%Q.
Proof.
  apply (X17_progress_saturates_within_95_ticks "task-a" startedImage 95).
  - reflexivity.
  - split; [reflexivity|]. exists 0%Q.
    split; [reflexivity|]. split; [apply Qle_refl|discriminate].
  - apply Nat.le_refl.
Defined.

(* ================================================================== *)
(** ** The batch runner: a whole run *)
(* ================================================================== *)

Section BatchRun.
Import JS Vip.

Lemma updateTask_other taskId f : forall l,
  ~ In taskId (map id l) -> updateTask taskId f l = l.
Proof.
  induction l as [|t rest IH]; intros H; simpl; [reflexivity|].
  simpl in H. destruct (Nat.eqb_spec (id t) taskId) as [E|_].
  - contradiction H. left. exact E.
  - rewrite IH; [reflexivity|]. intros Hin. apply H. right. exact Hin.
Qed.







End BatchRun.

Section TaskIdentity.
Import JS Vip.

(** A field [g] of the task record that none of the updaters writes. *)
Variable B : Type.
Variable g : VipTask -> B.
Hypothesis g_generating : forall c t, g (markGenerating c t) = g t.
Hypothesis g_completed : forall images t, g (markCompleted images t) = g t.
Hypothesis g_failed : forall m t, g (markFailed m t) = g t.
Hypothesis g_prompt : forall t p, g (withPrompt t p) = g t.

Lemma field_updateTask k f : (forall t, g (f t) = g t) ->
  forall l, map g (updateTask k f l) = map g l.
Proof.
  intros Hf. induction l as [|t rest IH]; [reflexivity|].
  simpl. fold (updateTask k f rest). rewrite IH.
  destruct (id t =? k); [rewrite Hf|]; reflexivity.
Qed.

Lemma field_mapi_from (f : VipTask -> nat -> VipTask) :
  (forall t i, g (f t i) = g t) ->
  forall l i0, map g (mapi_from f i0 l) = map g l.
Proof.
  intros Hf. induction l as [|t rest IH]; intros i0; [reflexivity|].
  simpl. rewrite Hf, IH. reflexivity.
Qed.

Lemma field_suspend r : map g (tasks (suspend r)) = map g (tasks (fst r)).
Proof.
  destruct r as [st [s|]]; reflexivity.
Qed.

Lemma field_forLoop cl : forall remaining i st,
  map g (tasks (fst (forLoop cl remaining i st))) = map g (tasks st).
Proof.
  induction remaining as [|t rest IH]; intros i st; [reflexivity|].
  cbn [forLoop]. destruct (cl_isPaused cl); [reflexivity|].
  destruct (Status_eqb (status t) completed); [apply IH|].
  simpl. apply field_updateTask. apply g_generating.
Qed.

Lemma field_step st e : map g (tasks (step st e)) = map g (tasks st).
Proof.
  destruct e as [| | | |k o|taskId|k o|taskId p|answer]; cbn [step];
    try reflexivity.
  - unfold batchEffect. destruct (isGenerating st && negb (isPaused st));
      [|reflexivity].
    unfold processGenerationQueue. cbn [cl_isPaused cl_tasks].
    destruct (isPaused st); [reflexivity|].
    rewrite field_suspend, field_forLoop. reflexivity.
  - destruct (take k (loops st)) as [[s others]|]; [|reflexivity].
    unfold loopResume. rewrite field_suspend, field_forLoop.
    destruct o; simpl; apply field_updateTask; intros x;
      [apply g_failed|apply g_completed].
  - unfold handleGenerateSingleTask.
    destruct (find _ (tasks st)); [|reflexivity].
    destruct (isGenerating st); [reflexivity|].
    simpl. apply field_updateTask. apply g_generating.
  - destruct (take k (singles st)) as [[taskId others]|]; [|reflexivity].
    unfold singleResume.
    destruct o; simpl; apply field_updateTask; intros x;
      [apply g_failed|apply g_completed].
  - simpl. apply field_updateTask. intros t. apply g_prompt.
  - unfold handleTranslateAll.
    destruct ((List.length (tasks st) =? 0) || isGenerating st);
      [reflexivity|].
    destruct (Gateway.translatePromptsToEnglish answer (map prompt (tasks st)));
      [reflexivity|].
    simpl. unfold applyTranslation, mapi. apply field_mapi_from.
    intros t i. apply g_prompt.
Qed.

Lemma field_run events : forall st,
  map g (tasks (run st events)) = map g (tasks st).
Proof.
  induction events as [|e rest IH]; intros st; [reflexivity|].
  simpl. fold (run (step st e) rest). rewrite IH. apply field_step.
Qed.

End TaskIdentity.

Section SingleRun.
Import JS Vip.

Lemma find_none_not_in taskId : forall l,
  find (fun t => id t =? taskId) l = None -> ~ In taskId (map id l).
Proof.
  induction l as [|t rest IH]; intros H; [intros []|].
  simpl in H. destruct (Nat.eqb_spec (id t) taskId) as [|Hne];
    [discriminate|].
  intros [E|Hin]; [exact (Hne E)|exact (IH H Hin)].
Qed.

Lemma updateTask_twice k f1 f2 :
  (forall t, id (f1 t) = id t) ->
  forall l,
    updateTask k f2 (updateTask k f1 l)
    = updateTask k (fun t => f2 (f1 t)) l.
Proof.
  intros Hid. induction l as [|t rest IH]; [reflexivity|].
  simpl. fold (updateTask k f1 rest).
  fold (updateTask k f2 (updateTask k f1 rest)).
  fold (updateTask k (fun t => f2 (f1 t)) rest). rewrite IH.
  destruct (id t =? k) eqn:E; [rewrite Hid, E|rewrite E]; reflexivity.
Qed.

Lemma mapi_from_ids (prompts : list (string * string)) : forall i0,
  map id
    (mapi_from (fun p i =>
                  {| id := i; name := fst p; prompt := snd p;
                     status := pending; imageUrl := None; error := None |})
       i0 prompts)
  = seq i0 (List.length prompts).
Proof.
  induction prompts as [|p rest IH]; intros i0; [reflexivity|].
  simpl. rewrite IH. reflexivity.
Qed.

Lemma mapi_from_fresh (prompts : list (string * string)) : forall i0,
  Forall (fun t => status t = pending /\ imageUrl t = None /\ error t = None)
    (mapi_from (fun p i =>
                  {| id := i; name := fst p; prompt := snd p;
                     status := pending; imageUrl := None; error := None |})
       i0 prompts)
  /\ map (fun t => (name t, prompt t))
       (mapi_from (fun p i =>
                  {| id := i; name := fst p; prompt := snd p;
                     status := pending; imageUrl := None; error := None |})
       i0 prompts)
     = prompts.
Proof.
  induction prompts as [|[n p] rest IH]; intros i0; [split; constructor|].
  destruct (IH (S i0)) as [H1 H2]. split.
  - constructor; [repeat split|exact H1].
  - simpl. cbn [mapi_from] in H2. rewrite H2. reflexivity.
Qed.

End SingleRun.



(** X19. No event of the batch runner adds, removes, reorders or renumbers
    a task: through every sequence of events the ids and the names of the
    task list are those of the start. *)
Theorem X19_tasks_keep_their_ids_and_names :
  forall (st : Vip.State) (events : list Vip.Event),
    map Vip.id (Vip.tasks (Vip.run st events)) = map Vip.id (Vip.tasks st)
    /\ map Vip.name (Vip.tasks (Vip.run st events))
       = map Vip.name (Vip.tasks st).
Proof.
  intros st events. split; apply field_run; reflexivity.
Qed.

(** X20. A single regeneration, started while no batch is running and then
    settled, rewrites the records with that id and nothing else: the record
    is completed with the first image and its earlier error cleared, or
    failed with the classified message.  [isGenerating] is never raised,
    and for an id that no task has nothing happens. *)
Theorem X20_single_regeneration :
  forall (st : Vip.State) (taskId : nat) (outcome : JS.Thrown + list string),
    Vip.isGenerating st = false ->
    Vip.singles st = [] ->
    let final :=
      Vip.run st [Vip.GenerateSingle taskId; Vip.SingleSettles 0 outcome] in
    Vip.tasks final
    = Vip.updateTask taskId (singleSettled outcome) (Vip.tasks st)
    /\ Vip.isGenerating final = false
    /\ Vip.singles final = []
    /\ (~ In taskId (map Vip.id (Vip.tasks st)) -> final = st).
Proof.
  intros st taskId outcome Hgen Hsingles. simpl.
  unfold Vip.handleGenerateSingleTask.
  destruct (find _ (Vip.tasks st)) as [task|] eqn:Hfind.
  - rewrite Hgen. cbn [Vip.singles Vip.setSingles Vip.setTasks].
    rewrite Hsingles. cbn [app Vip.take]. unfold Vip.singleResume.
    split; [|split; [|split]].
    + destruct outcome; cbn [Vip.tasks Vip.setTasks Vip.setSingles];
        rewrite updateTask_twice by reflexivity; reflexivity.
    + destruct outcome; simpl; exact Hgen.
    + destruct outcome; reflexivity.
    + intros Hnot. exfalso. apply Hnot.
      destruct (find_some _ _ Hfind) as [Hin E].
      apply Nat.eqb_eq in E. rewrite <- E. apply in_map. exact Hin.
  - rewrite Hsingles. cbn [Vip.take].
    split; [|split; [|split]]; try assumption; try reflexivity.
    symmetry. apply updateTask_other. apply find_none_not_in. exact Hfind.
Qed.

Lemma X20_witness :
  let final :=
    Vip.run threeScenes
      [Vip.GenerateSingle 1; Vip.SingleSettles 0 (artifact "BBBB")] in
  map (fun t => (Vip.status t, Vip.imageUrl t)) (Vip.tasks final)
  = [(Vip.pending, None);
     (Vip.completed, Some "data:image/png;base64,BBBB");
     (Vip.pending, None)]
  /\ Vip.isGenerating final = false.
Proof.
  destruct (X20_single_regeneration threeScenes 1 (artifact "BBBB")
              eq_refl eq_refl) as [H1 [H2 _]].
  split; [rewrite H1; reflexivity|exact H2].
Defined.

(** X21. [handleAnalyze] numbers the analysed prompts by position: for
    prompts of the declared shape (a name and a prompt, no other key) the
    ids are 0, 1, ..., n-1 (so they are distinct), names and prompts are
    kept in order, and every task starts pending with no image and no
    error. *)
Theorem X21_analysed_tasks_are_numbered_by_position :
  forall prompts : list (string * string),
    map Vip.id (Vip.tasks (Vip.analysed prompts))
    = seq 0 (List.length prompts)
    /\ NoDup (map Vip.id (Vip.tasks (Vip.analysed prompts)))
    /\ map (fun t => (Vip.name t, Vip.prompt t))
         (Vip.tasks (Vip.analysed prompts)) = prompts
    /\ Forall (fun t => Vip.status t = Vip.pending
                        /\ Vip.imageUrl t = None /\ Vip.error t = None)
         (Vip.tasks (Vip.analysed prompts)).
Proof.
  intros prompts. unfold Vip.analysed, JS.mapi. cbn [Vip.tasks].
  destruct (mapi_from_fresh prompts 0) as [H1 H2].
  rewrite mapi_from_ids.
  split; [reflexivity|split; [apply seq_NoDup|split; [exact H2|exact H1]]].
Qed.

Section GalleryEdits.
Import JS App.

Lemma nth_error_update_at (A : Type) (f : A -> A) : forall (l : list A) k j,
  nth_error (update_at k f l) j
  = if j =? k then option_map f (nth_error l j) else nth_error l j.
Proof.
  induction l as [|x rest IH]; intros k j.
  - destruct k, j; simpl; try reflexivity; destruct (j =? k); reflexivity.
  - destruct k as [|k], j as [|j]; simpl; try reflexivity. apply IH.
Qed.

Lemma setImageGroups_same (f : list ImageGroup -> list ImageGroup) st :
  f (imageGroups st) = imageGroups st -> setImageGroups f st = st.
Proof.
  intros H. destruct st. unfold setImageGroups. simpl in *. rewrite H.
  reflexivity.
Qed.


End GalleryEdits.



(** X23. [handleRenameImage] changes one field of one image: afterwards the
    image at every position is the one that was there, except that the
    image at the given indices carries the new name; groups and their dates
    are kept, the trash and the queue are untouched, and at indices that
    name no image nothing changes at all. *)
Theorem X23_rename_changes_one_name :
  forall (st : App.State) (groupIdx imageIdx : nat) (newName : string),
    let st' := handleRenameImage groupIdx imageIdx newName st in
    (forall g i,
        App.imageAt (App.imageGroups st') g i
        = if (g =? groupIdx) && (i =? imageIdx)
          then option_map (fun image => withName image newName)
                 (App.imageAt (App.imageGroups st) g i)
          else App.imageAt (App.imageGroups st) g i)
    /\ map App.date (App.imageGroups st') = map App.date (App.imageGroups st)
    /\ App.trash st' = App.trash st
    /\ App.taskQueue st' = App.taskQueue st
    /\ (App.imageAt (App.imageGroups st) groupIdx imageIdx = None -> st' = st).
Proof.
  intros st groupIdx imageIdx newName st'.
  unfold st', handleRenameImage.
  destruct (App.imageAt (App.imageGroups st) groupIdx imageIdx) as [img|] eqn:H.
  - cbn [App.imageGroups App.setImageGroups App.trash App.taskQueue].
    rewrite H.
    split; [|split; [apply dates_update_at; reflexivity
                    |repeat split; discriminate]].
    intros g i. unfold App.imageAt. rewrite nth_error_update_at.
    destruct (Nat.eqb_spec g groupIdx) as [->|Hg]; [|reflexivity].
    destruct (nth_error (App.imageGroups st) groupIdx) as [group|];
      [|simpl; destruct (i =? imageIdx); reflexivity].
    cbn [option_map App.images App.withImages andb].
    rewrite nth_error_update_at. destruct (i =? imageIdx); reflexivity.
  - rewrite setImageGroups_same by (rewrite H; reflexivity).
    split; [|repeat split].
    intros g i.
    destruct (Nat.eqb_spec g groupIdx) as [->|]; [|reflexivity].
    destruct (Nat.eqb_spec i imageIdx) as [->|]; [|reflexivity].
    rewrite H. reflexivity.
Qed.

Lemma X23_witness :
  let st' := handleRenameImage 0 1 "tabby"
               (App.initial storedGallery storedTrash) in
  option_map App.name (App.imageAt (App.imageGroups st') 0 1) = Some "tabby"
  /\ App.imageAt (App.imageGroups st') 0 0
     = App.imageAt storedGallery 0 0.
Proof.
  destruct (X23_rename_changes_one_name
              (App.initial storedGallery storedTrash) 0 1 "tabby")
    as [H _].
  split; [rewrite (H 0 1)|rewrite (H 0 0)]; reflexivity.
Defined.
